(** * patter: batch collation, bucketing sampler and transcript parsing

    A shallow embedding of [patter/data/dataset.py] and of [split_targets]
    from [patter/trainer.py], with the properties of the batching pipeline
    proved over it.

    Conventions of the embedding.
    - A Python exception is a value of [exn]; a call that may raise returns a
      [result].
    - A Python [list] that a function mutates in place is passed in and
      handed back: the function returns the list as the caller sees it after
      the call next to the returned value.
    - Python integers are [Z]; sizes and indices that can never be negative
      ([len], [Tensor.size], positions produced by [enumerate]) are [nat].
    - A torch tensor is its shape with a total indexing function; only the
      positions inside the shape are meaningful.  The element type is
      abstract ([Dtype]): the code only ever copies elements and writes
      zeros. *)

From Stdlib Require Import Ascii SetoidPermutation.
From stdpp Require Import base numbers list sorting gmap strings.

Local Open Scope Z_scope.

(* ================================================================== *)
(** * Python runtime *)

(** The exceptions the modelled code can raise. *)
Inductive exn : Type :=
  | IndexError                      (* list index out of range *)
  | ValueError                      (* range() arg 3 must not be zero *)
  | TypeError                       (* __len__ returned a non-integer *)
  | RuntimeError                    (* raised by torch *)
  | FileNotFoundError
  | OSError                         (* any other failure of [open] or [read] *)
  | UnicodeDecodeError              (* [read] could not decode the file *)
  | AttributeError (attr : string). (* object has no attribute [attr] *)

Inductive result (A : Type) : Type :=
  | Ok (a : A)
  | Raise (e : exn).
Arguments Ok {A} a.
Arguments Raise {A} e.

Definition bind {A B} (m : result A) (k : A → result B) : result B :=
  match m with
  | Ok a => k a
  | Raise e => Raise e
  end.

Notation "'do' x <- m ; k" := (bind m (λ x, k))
  (at level 10, x pattern, m at level 100, k at level 200,
   format "'[v' 'do'  x  <-  m ; '/' k ']'").

(** A [for] loop whose body may raise: the loop stops at the first
    exception. *)
Fixpoint for_each {S X} (body : S → X → result S) (s : S) (xs : list X)
  : result S :=
  match xs with
  | [] => Ok s
  | x :: xs' => do s' <- body s x; for_each body s' xs'
  end.

(** [enumerate(xs)], counting from [i]. *)
Fixpoint enumerate_from {X} (i : nat) (xs : list X) : list (nat * X) :=
  match xs with
  | [] => []
  | x :: xs' => (i, x) :: enumerate_from (S i) xs'
  end.

Definition enumerate {X} (xs : list X) : list (nat * X) := enumerate_from 0 xs.

(** [xs[0]]. *)
Definition getitem0 {X} (xs : list X) : result X :=
  match xs with
  | [] => Raise IndexError
  | x :: _ => Ok x
  end.

(** [list.sort(key=...)] sorts by ascending key and is stable: items with
    equal keys keep their order.  The result of a stable sort is determined
    by the input ([stable_sort_unique] below), so it is given here by stable
    insertion: each item is put in front of the first later item whose key is
    not smaller. *)
Fixpoint insert_by {X} (key : X → Z) (x : X) (xs : list X) : list X :=
  match xs with
  | [] => [x]
  | y :: xs' => if key x <=? key y then x :: xs else y :: insert_by key x xs'
  end.

Fixpoint list_sort {X} (key : X → Z) (xs : list X) : list X :=
  match xs with
  | [] => []
  | x :: xs' => insert_by key x (list_sort key xs')
  end.

(** One bound of a slice, as Python normalises it against a sequence of
    length [n]: a negative bound counts from the end, and every bound is
    clamped into [0, n]. *)
Definition slice_bound (n : nat) (i : Z) : nat :=
  if i <? 0 then Z.to_nat (Z.max 0 (i + Z.of_nat n))
  else Z.to_nat (Z.min i (Z.of_nat n)).

(** [xs[lo:hi]]. *)
Definition slice {X} (xs : list X) (lo hi : Z) : list X :=
  let a := slice_bound (length xs) lo in
  let b := slice_bound (length xs) hi in
  take (b - a)%nat (drop a xs).

(** [len(range(start, stop, step))] for [step ≠ 0]. *)
Definition range_len (start stop step : Z) : nat :=
  if 0 <? step then
    if start <? stop then Z.to_nat ((stop - start - 1) / step + 1) else 0%nat
  else
    if stop <? start then Z.to_nat ((start - stop - 1) / (- step) + 1)
    else 0%nat.

(** [range(start, stop, step)] as the list of the values it produces. *)
Definition range (start stop step : Z) : result (list Z) :=
  if step =? 0 then Raise ValueError
  else Ok ((λ k : nat, start + Z.of_nat k * step)
             <$> seq 0 (range_len start stop step)).

(* ================================================================== *)
(** * Torch tensors *)

(** The element type of a float tensor, with the value [torch.zeros]
    writes. *)
Class Dtype (elt : Type) := zero : elt.

(** A 2-D tensor: [size t 0] rows (features) by [size t 1] columns
    (frames). *)
Record Tensor2 (elt : Type) : Type := mkTensor2 {
  dim0 : nat;
  dim1 : nat;
  item : nat → nat → elt
}.
Arguments mkTensor2 {elt} dim0 dim1 item.
Arguments dim0 {elt} t.
Arguments dim1 {elt} t.
Arguments item {elt} t r c.

(** [t.size(d)] for [d] in {0, 1}. *)
Definition size {elt} (t : Tensor2 elt) (d : nat) : nat :=
  match d with
  | O => dim0 t
  | _ => dim1 t
  end.

Arguments size {elt} t d : simpl never.

(** A 4-D tensor. *)
Record Tensor4 (elt : Type) : Type := mkTensor4 {
  shape : nat * nat * nat * nat;
  item4 : nat → nat → nat → nat → elt
}.
Arguments mkTensor4 {elt} shape item4.
Arguments shape {elt} t.
Arguments item4 {elt} t n c r col.

(** [torch.zeros(n, c, h, w)]. *)
Definition torch_zeros `{Dtype elt} (n c h w : nat) : Tensor4 elt :=
  mkTensor4 (n, c, h, w) (λ _ _ _ _, zero).

(** Whether a source dimension may be copied into a destination dimension:
    torch broadcasts a source dimension of size 1. *)
Definition broadcasts (src dst : nat) : bool :=
  (src =? dst)%nat || (src =? 1)%nat.

(** [inputs[i][0].narrow(1, 0, src.size(1)).copy_(src)]: the row block of
    sample [i], channel 0, restricted to its first [src.size(1)] columns, is
    overwritten with [src].  Indexing raises [IndexError] out of range,
    [narrow] raises when the block has fewer columns than asked for, and
    [copy_] raises when [src] does not broadcast to the narrowed block. *)
Definition narrow_copy_ {elt} (inputs : Tensor4 elt) (i : nat)
    (src : Tensor2 elt) : result (Tensor4 elt) :=
  let '(n, c, h, w) := shape inputs in
  let len := size src 1 in
  if negb (i <? n)%nat then Raise IndexError
  else if negb (0 <? c)%nat then Raise IndexError
  else if negb (len <=? w)%nat then Raise RuntimeError
  else if negb (broadcasts (size src 0) h) then Raise RuntimeError
  else Ok (mkTensor4 (shape inputs)
             (λ a b r col,
                if (a =? i)%nat && (b =? 0)%nat && (r <? h)%nat
                   && (col <? len)%nat
                then item src (if (size src 0 =? h)%nat then r else 0%nat) col
                else item4 inputs a b r col)).

(** An [IntTensor] holds 32-bit signed integers; storing a Python integer
    outside that range raises. *)
Definition fits_int32 (v : Z) : bool :=
  (- 2 ^ 31 <=? v) && (v <? 2 ^ 31).

(** [torch.IntTensor(n)]: [n] elements, not initialised (shown as 0). *)
Definition IntTensor_new (n : nat) : list Z := replicate n 0.

(** [torch.IntTensor(values)]. *)
Definition IntTensor_of_list (values : list Z) : result (list Z) :=
  if forallb fits_int32 values then Ok values else Raise RuntimeError.

(** [t[i] = v] on an [IntTensor]. *)
Definition setitem (t : list Z) (i : nat) (v : Z) : result (list Z) :=
  if negb (i <? length t)%nat then Raise IndexError
  else if negb (fits_int32 v) then Raise RuntimeError
  else Ok (<[i := v]> t).

(* ================================================================== *)
(** * dataset.py: audio_seq_collate_fn *)

(** A sample is a pair (spectrogram, transcript): [x[0]] is a 2-D tensor of
    [feature_dim] rows by [frame_count] columns, [x[1]] a list of label
    indices. *)
Definition Sample (elt : Type) : Type := (Tensor2 elt * list Z)%type.

(** What the function returns:
    [inputs, targets, input_lengths, target_sizes]. *)
Record Batch (elt : Type) : Type := mkBatch {
  inputs : Tensor4 elt;
  targets : list Z;
  input_lengths : list Z;
  target_sizes : list Z
}.
Arguments mkBatch {elt} inputs targets input_lengths target_sizes.
Arguments inputs {elt} b.
Arguments targets {elt} b.
Arguments input_lengths {elt} b.
Arguments target_sizes {elt} b.

(** The local variables the loop updates; [acc_targets] is the Python list
    [targets] before it is turned into a tensor. *)
Record Acc (elt : Type) : Type := mkAcc {
  acc_inputs : Tensor4 elt;
  acc_input_lengths : list Z;
  acc_target_sizes : list Z;
  acc_targets : list Z
}.
Arguments mkAcc {elt} acc_inputs acc_input_lengths acc_target_sizes acc_targets.
Arguments acc_inputs {elt} a.
Arguments acc_input_lengths {elt} a.
Arguments acc_target_sizes {elt} a.
Arguments acc_targets {elt} a.

(** The sort key [lambda x: -x[0].size(1)]. *)
Definition sort_key {elt} (x : Sample elt) : Z := - Z.of_nat (size x.1 1).

(** The body of [for i, sample in enumerate(batch)]. *)
Definition collate_body {elt} (acc : Acc elt) (it : nat * Sample elt)
  : result (Acc elt) :=
  let '(i, sample) := it in
  do lens <- setitem (acc_input_lengths acc) i (Z.of_nat (size sample.1 1));
  do inp <- narrow_copy_ (acc_inputs acc) i sample.1;
  do sizes <- setitem (acc_target_sizes acc) i (Z.of_nat (length sample.2));
  Ok (mkAcc inp lens sizes (acc_targets acc ++ sample.2)).

(** The statements after [batch.sort], on the sorted list. *)
Definition collate_sorted `{Dtype elt} (batch : list (Sample elt))
  : result (Batch elt) :=
  let minibatch_size := length batch in
  do first <- getitem0 batch;
  let acc0 :=
    mkAcc (torch_zeros minibatch_size 1 (size first.1 0) (size first.1 1))
          (IntTensor_new minibatch_size)
          (IntTensor_new minibatch_size)
          [] in
  do acc <- for_each collate_body acc0 (enumerate batch);
  do tgt <- IntTensor_of_list (acc_targets acc);
  Ok (mkBatch (acc_inputs acc) tgt (acc_input_lengths acc)
        (acc_target_sizes acc)).

(** [audio_seq_collate_fn(batch)].  [batch.sort] reorders the caller's list
    in place, so the function hands back the list as it is after the call
    (first component) and what the call returns or raises (second). *)
Definition audio_seq_collate_fn `{Dtype elt} (batch : list (Sample elt))
  : list (Sample elt) * result (Batch elt) :=
  let batch' := list_sort sort_key batch in
  (batch', collate_sorted batch').

(* ================================================================== *)
(** * trainer.py: split_targets *)

(** A sum of 32-bit integers, as an [IntTensor] computes it: the result
    wraps around into [-2^31, 2^31). *)
Definition wrap_int32 (z : Z) : Z := (z + 2 ^ 31) `mod` 2 ^ 32 - 2 ^ 31.

(** The loop of [split_targets] with its running [offset]; [results] is
    returned in order.  The program calls the function on the IntTensors
    [targets] and [target_sizes] (trainer.py, line 168): every [size] the
    loop reads is a 32-bit integer tensor, so [offset + size] is a 32-bit
    sum, which wraps around, and so is the [offset] of the next round. *)
Fixpoint split_from (tgts : list Z) (offset : Z) (sizes : list Z)
  : list (list Z) :=
  match sizes with
  | [] => []
  | sz :: sizes' =>
      slice tgts offset (wrap_int32 (offset + sz))
      :: split_from tgts (wrap_int32 (offset + sz)) sizes'
  end.

Definition split_targets (tgts sizes : list Z) : list (list Z) :=
  split_from tgts 0 sizes.

(* ================================================================== *)
(** * trainer.py: the batches of the training loader *)

(** [[dataset[i] for i in indices]] on a dataset that is a Python list;
    an index past the end raises IndexError. *)
Fixpoint fetch {X} (dataset : list X) (indices : list nat)
  : result (list X) :=
  match indices with
  | [] => Ok []
  | i :: indices' =>
      do x <- match dataset !! i with
              | Some x => Ok x
              | None => Raise IndexError
              end;
      do xs <- fetch dataset indices';
      Ok (x :: xs)
  end.

(** What [DataLoader(corpus, collate_fn=audio_seq_collate_fn,
    batch_sampler=train_sampler)] makes of one bucket of indices that the
    sampler yields: the samples at these indices are collected in a new
    list, which is handed to the collate function. *)
Definition load_batch `{Dtype elt} (dataset : list (Sample elt))
    (indices : list nat) : result (Batch elt) :=
  do batch <- fetch dataset indices;
  (audio_seq_collate_fn batch).2.

(* ================================================================== *)
(** * dataset.py: BucketingSampler *)

(** The [len()] protocol: what [len(data_source)] returns or raises. *)
Class Sized (D : Type) := py_len : D → result nat.

(** A Python list has a length. *)
Global Instance list_sized {X} : Sized (list X) := λ xs, Ok (length xs).

(** numpy's process-wide random generator, with the one operation the
    sampler uses: [np.random.shuffle(x)] reorders the sequence [x] in place
    and advances the generator.  The generator itself is outside this
    repository; [G] is its state. *)
Class RandomState (G : Type) :=
  np_random_shuffle : ∀ {X : Type}, list X → G → list X * G.

(** What numpy documents about [shuffle]: the contents are reordered, none
    is lost or repeated. *)
Definition shuffle_permutes (G : Type) `{RandomState G} : Prop :=
  ∀ (X : Type) (xs : list X) (g : G), (np_random_shuffle xs g).1 ≡ₚ xs.

(** The attributes of a sampler: [self.data_source] and [self.bins], a list
    of lists of dataset indices. *)
Record BucketingSampler (D : Type) : Type := mkSampler {
  data_source : D;
  bins : list (list nat)
}.
Arguments mkSampler {D} data_source bins.
Arguments data_source {D} _.
Arguments bins {D} _.

(** [BucketingSampler.__init__(data_source, batch_size)]. *)
Definition BucketingSampler_init `{Sized D} (ds : D) (batch_size : Z)
  : result (BucketingSampler D) :=
  do n <- py_len ds;
  let ids := seq 0 n in
  do starts <- range 0 (Z.of_nat (length ids)) batch_size;
  Ok (mkSampler ds ((λ i, slice ids i (i + batch_size)) <$> starts)).

(** The loop of [__iter__]: every bin is shuffled in place, then yielded.
    Returns the bins as the loop leaves them and the generator state; the
    list yielded at step [k] is bin [k] of the result (the yielded object
    is the bin itself, and it is not touched again during the pass). *)
Fixpoint shuffle_each `{RandomState G} (bs : list (list nat)) (g : G)
  : list (list nat) * G :=
  match bs with
  | [] => ([], g)
  | ids :: bs' =>
      let '(ids', g1) := np_random_shuffle ids g in
      let '(rest, g2) := shuffle_each bs' g1 in
      (ids' :: rest, g2)
  end.

(** One full pass of [BucketingSampler.__iter__]: the sequence of yielded
    buckets, the sampler afterwards, the generator afterwards. *)
Definition BucketingSampler_iter {D} `{RandomState G}
    (s : BucketingSampler D) (g : G)
  : list (list nat) * BucketingSampler D * G :=
  let '(bs, g') := shuffle_each (bins s) g in
  (bs, mkSampler (data_source s) bs, g').

(** [BucketingSampler.__len__]. *)
Definition BucketingSampler_len {D} (s : BucketingSampler D) : nat :=
  length (bins s).

(** [BucketingSampler.shuffle]. *)
Definition BucketingSampler_shuffle {D} `{RandomState G}
    (s : BucketingSampler D) (g : G) : BucketingSampler D * G :=
  let '(bs, g') := np_random_shuffle (bins s) g in
  (mkSampler (data_source s) bs, g').

(** One [next()] on the generator that [__iter__] returns, when the loop
    [for ids in self.bins] stands at position [k]: past the end of
    [self.bins] the generator is exhausted and nothing changes; otherwise
    bin [k] is shuffled in place and yielded. *)
Definition generator_next {D} `{RandomState G} (k : nat)
    (s : BucketingSampler D) (g : G)
  : option (list nat) * BucketingSampler D * G :=
  match bins s !! k with
  | None => (None, s, g)
  | Some ids =>
      let '(ids', g') := np_random_shuffle ids g in
      (Some ids', mkSampler (data_source s) (<[k := ids']> (bins s)), g')
  end.

(** The calls that change a sampler after construction. *)
Inductive call : Type :=
  | CallIter            (* a pass of [__iter__], run to exhaustion *)
  | CallNext (k : nat)  (* one step of a pass that stands at position [k] *)
  | CallShuffle.        (* [shuffle()] *)

Definition run_call {D} `{RandomState G} (c : call)
    (st : BucketingSampler D * G) : BucketingSampler D * G :=
  match c with
  | CallIter => let '(_, s', g') := BucketingSampler_iter st.1 st.2 in (s', g')
  | CallNext k => let '(_, s', g') := generator_next k st.1 st.2 in (s', g')
  | CallShuffle => BucketingSampler_shuffle st.1 st.2
  end.

(** A sequence of calls, in order. *)
Definition run_calls {D} `{RandomState G} (cs : list call)
    (st : BucketingSampler D * G) : BucketingSampler D * G :=
  foldl (λ st c, run_call c st) st cs.

(* ================================================================== *)
(** * numpy.random: the process-wide generator *)

(** [np.random] is one generator for the whole process, a Mersenne Twister
    (MT19937).  Its state is 624 words of 32 bits and a position; the
    definitions follow numpy's [mt19937_seed], [mt19937_gen],
    [mt19937_next], [random_interval] and the loop of [shuffle]. *)
Module MT19937.

Record state : Type := mk {
  key : list Z;
  pos : nat
}.

(** [x & 0xffffffff]. *)
Definition w32 (x : Z) : Z := Z.land x 4294967295.

(** The loop of [mt19937_seed]: [key[pos] = seed], then
    [seed = (1812433253 * (seed ^ (seed >> 30)) + pos + 1) & 0xffffffff]. *)
Fixpoint seed_keys (n : nat) (pos : Z) (seed : Z) : list Z :=
  match n with
  | O => []
  | S n' =>
      seed
      :: seed_keys n' (pos + 1)
           (w32 (1812433253 * Z.lxor seed (Z.shiftr seed 30) + pos + 1))
  end.

(** [mt19937_seed(state, seed)]. *)
Definition seed (s : Z) : state := mk (seed_keys 624 0 (w32 s)) 624.

Definition word (k : list Z) (i : nat) : Z := default 0 (k !! i).

(** One round of the loops of [mt19937_gen], at index [i], on the key as the
    earlier rounds left it:
    [y = (key[i] & 0x80000000) | (key[i+1] & 0x7fffffff)] and
    [key[i] = key[i+397] ^ (y >> 1) ^ (-(y & 1) & 0x9908b0df)], indices
    taken modulo 624. *)
Definition twist_at (k : list Z) (i : nat) : list Z :=
  let y := Z.lor (Z.land (word k i) 2147483648)
                 (Z.land (word k ((i + 1) `mod` 624)) 2147483647) in
  <[i := Z.lxor (Z.lxor (word k ((i + 397) `mod` 624)) (Z.shiftr y 1))
                (if Z.odd y then 2567483615 else 0)]> k.

(** [mt19937_gen]: the next 624 words. *)
Definition gen (k : list Z) : list Z := foldl twist_at k (seq 0 624).

(** The tempering of [mt19937_next]. *)
Definition temper (y : Z) : Z :=
  let y := Z.lxor y (Z.shiftr y 11) in
  let y := Z.lxor y (Z.land (Z.shiftl y 7) 2636928640) in
  let y := Z.lxor y (Z.land (Z.shiftl y 15) 4022730752) in
  Z.lxor y (Z.shiftr y 18).

(** [mt19937_next]: one 32-bit draw. *)
Definition next_uint32 (st : state) : Z * state :=
  let st := if (pos st =? 624)%nat then mk (gen (key st)) 0 else st in
  (temper (word (key st) (pos st)), mk (key st) (S (pos st))).

(** The smallest bit mask that covers [max]. *)
Definition mask_of (max : Z) : Z :=
  let m := max in
  let m := Z.lor m (Z.shiftr m 1) in
  let m := Z.lor m (Z.shiftr m 2) in
  let m := Z.lor m (Z.shiftr m 4) in
  let m := Z.lor m (Z.shiftr m 8) in
  let m := Z.lor m (Z.shiftr m 16) in
  Z.lor m (Z.shiftr m 32).

(** The rejection loop of [random_interval] for [0 < max <= 0xffffffff]:
    [while ((value = next_uint32() & mask) > max);], run for at most
    [budget] draws; [None] when no draw was accepted within the budget. *)
Fixpoint draw_below (budget : nat) (mask max : Z) (st : state)
  : option (Z * state) :=
  match budget with
  | O => None
  | S budget' =>
      let '(v, st') := next_uint32 st in
      let value := Z.land v mask in
      if value <=? max then Some (value, st')
      else draw_below budget' mask max st'
  end.

(** [random_interval(max)]: a value in [0, max]. *)
Definition random_interval (budget : nat) (max : Z) (st : state)
  : option (Z * state) :=
  if max =? 0 then Some (0, st) else draw_below budget (mask_of max) max st.

(** [x[i], x[j] = x[j], x[i]]. *)
Definition swap {X} (xs : list X) (i j : nat) : list X :=
  match xs !! i, xs !! j with
  | Some a, Some b => <[j := a]> (<[i := b]> xs)
  | _, _ => xs
  end.

(** The loop of [shuffle] on a sequence:
    [for i in reversed(range(1, n)): j = random_interval(i); swap]. *)
Fixpoint shuffle_from {X} (budget : nat) (i : nat) (xs : list X) (st : state)
  : option (list X * state) :=
  match i with
  | O => Some (xs, st)
  | S i' =>
      match random_interval budget (Z.of_nat i) st with
      | Some (j, st') => shuffle_from budget i' (swap xs i (Z.to_nat j)) st'
      | None => None
      end
  end.

Definition shuffle {X} (budget : nat) (xs : list X) (st : state)
  : option (list X * state) :=
  shuffle_from budget (length xs - 1) xs st.

End MT19937.

(** The draws one call of [random_interval] may take in this model.  Each
    draw is accepted with probability above one half. *)
Definition draw_budget : nat := 256.

(** The state of [np.random]: the Mersenne Twister state, or [None] once a
    rejection loop has used up [draw_budget]. *)
Abbreviation np_generator := (option MT19937.state).

(** [np.random.shuffle] on numpy's own generator. *)
Global Instance numpy_random : RandomState np_generator :=
  λ X xs g,
    match g with
    | Some st =>
        match MT19937.shuffle draw_budget xs st with
        | Some (ys, st') => (ys, Some st')
        | None => (xs, None)
        end
    | None => (xs, None)
    end.

(** [np.random.seed(seed)] for an integer seed. *)
Definition np_random_seed (seed : Z) : result np_generator :=
  if (0 <=? seed) && (seed <? 2 ^ 32) then Ok (Some (MT19937.seed seed))
  else Raise ValueError.

(* ================================================================== *)
(** * dataset.py: AudioDataset *)

(** The values held by the attributes of an [AudioDataset].  [M] is the
    type of a loaded manifest and [F] of a featurizer; both are built
    outside this file. *)
Inductive value (M F : Type) : Type :=
  | VInt (n : Z)
  | VManifest (m : M)
  | VFeaturizer (f : option F)
  | VLabelsMap (m : gmap ascii nat)
  | VList (ids : list (string * string)).
Arguments VInt {M F} n.
Arguments VManifest {M F} m.
Arguments VFeaturizer {M F} f.
Arguments VLabelsMap {M F} m.
Arguments VList {M F} ids.

(** An instance is its attribute dictionary.  Neither [AudioDataset] nor its
    base class [Dataset] has class attributes besides methods, so looking up
    a data attribute is a lookup in this dictionary. *)
Abbreviation object M F := (gmap string (value M F)).

(** [self.name]. *)
Definition getattr {M F} (self : object M F) (name : string)
  : result (value M F) :=
  match self !! name with
  | Some v => Ok v
  | None => Raise (AttributeError name)
  end.

(** [dict([(labels[i], i) for i in range(len(labels))])]: a later pair
    replaces an earlier one with the same key. *)
Definition make_labels_map (labels : list ascii) : gmap ascii nat :=
  foldl (λ m (p : nat * ascii), <[p.2 := p.1]> m) ∅ (enumerate labels).

(** [AudioDataset.__init__], given the manifest it loaded: the three
    assignments to [self]. *)
Definition AudioDataset_init {M F} (manifest : M) (labels : list ascii)
    (featurizer : option F) : object M F :=
  <["featurizer" := VFeaturizer featurizer]>
    (<["labels_map" := VLabelsMap (make_labels_map labels)]>
       (<["manifest" := VManifest manifest]> ∅)).

(** [AudioDataset.__len__] is [return self.size]; [len()] then wants a
    non-negative integer. *)
Definition AudioDataset_len {M F} (self : object M F) : result nat :=
  do v <- getattr self "size";
  match v with
  | VInt n => if 0 <=? n then Ok (Z.to_nat n) else Raise ValueError
  | _ => Raise TypeError
  end.

Global Instance AudioDataset_sized {M F} : Sized (object M F) :=
  AudioDataset_len.

(** The first statement of [AudioDataset.__getitem__]:
    [sample = self.ids[index]]. *)
Definition AudioDataset_getitem_sample {M F} (self : object M F) (index : nat)
  : result (string * string) :=
  do v <- getattr self "ids";
  match v with
  | VList ids =>
      match ids !! index with
      | Some sample => Ok sample
      | None => Raise IndexError
      end
  | _ => Raise TypeError
  end.

(** Truthiness of what [dict.get] returned: [None] and [0] are falsy. *)
Definition truthy (v : option nat) : bool :=
  match v with
  | Some (S _) => true
  | _ => false
  end.

Definition newline : ascii := "010"%char.

(** The body of [parse_transcript] on the text read from the file:
    newlines are removed, every character is looked up in [labels_map],
    and [filter(None, ...)] keeps the truthy results. *)
Definition parse_text (labels_map : gmap ascii nat) (text : list ascii)
  : list (option nat) :=
  let transcript := filter (λ c, c ≠ newline) text in
  filter (λ v, truthy v = true) ((λ x, labels_map !! x) <$> transcript).

(** What [open(path, 'r').read()] does, path by path: it returns the text
    of the file, or [open] or [read] raises (FileNotFoundError, another
    OSError, UnicodeDecodeError).  The text is the string [read()] returns:
    already decoded, and with universal newlines applied, so that every line
    ending of the file arrives as one newline character. *)
Abbreviation filesystem := (string → result (list ascii)).

(** [AudioDataset.parse_transcript(transcript_path)]. *)
Definition parse_transcript {M F} (fs : filesystem) (self : object M F)
    (transcript_path : string) : result (list (option nat)) :=
  do text <- fs transcript_path;
  do lm <- getattr self "labels_map";
  match lm with
  | VLabelsMap m => Ok (parse_text m text)
  | _ => Raise TypeError
  end.

(* ================================================================== *)
(** * Vocabulary of the properties *)

(** Ascending keys, every item against every later one. *)
Definition ascending {X} (key : X → Z) (xs : list X) : Prop :=
  StronglySorted (λ a b, key a ≤ key b) xs.

Definition frame_count {elt} (x : Sample elt) : nat := size x.1 1.
Definition feature_dim {elt} (x : Sample elt) : nat := size x.1 0.
Definition label_count {elt} (x : Sample elt) : nat := length x.2.

(** A sample that fits a batch of feature dimension [h]: it has [h]
    features, and its frame count, its label count and its labels are
    representable in an [IntTensor]. *)
Definition sample_ok {elt} (h : nat) (x : Sample elt) : bool :=
  (feature_dim x =? h)%nat
  && fits_int32 (Z.of_nat (frame_count x))
  && fits_int32 (Z.of_nat (label_count x))
  && forallb fits_int32 x.2.

(** A valid batch: not empty, and all samples fit the feature dimension of
    the first one. *)
Definition valid_batch {elt} (batch : list (Sample elt)) : bool :=
  match batch with
  | [] => false
  | x0 :: _ => forallb (sample_ok (feature_dim x0)) batch
  end.

(** A sequence of lengths that never increases. *)
Definition non_increasing (l : list Z) : Prop :=
  ∀ i j a b, (i ≤ j)%nat → l !! i = Some a → l !! j = Some b → b ≤ a.

(** Sum of the entries of an integer tensor. *)
Definition tensor_sum (l : list Z) : Z := foldr Z.add 0 l.

(** The state of the process-wide generator after [np.random.shuffle] has
    been called on the first [k] of the bins [bs], one after the other,
    starting from the state [g]. *)
Fixpoint generator_after `{RandomState G} (k : nat) (bs : list (list nat))
    (g : G) : G :=
  match k, bs with
  | S k', ids :: bs' => generator_after k' bs' (np_random_shuffle ids g).2
  | _, _ => g
  end.

(** Two lists of buckets hold the same buckets: they agree up to the order
    of the buckets and the order of the indices inside each bucket. *)
Definition same_buckets : relation (list (list nat)) :=
  PermutationA (@Permutation nat).

(** The buckets partition the index range [0, n): every index below [n] is
    in a bucket, in one bucket only, and only once in it, and the buckets
    hold nothing else. *)
Definition partitions (n : nat) (bs : list (list nat)) : Prop :=
  (∀ i, (i < n)%nat → ∃ k b, bs !! k = Some b ∧ i ∈ b)
  ∧ (∀ i k1 k2 b1 b2,
       bs !! k1 = Some b1 → bs !! k2 = Some b2 → i ∈ b1 → i ∈ b2 → k1 = k2)
  ∧ Forall NoDup bs
  ∧ (∀ b i, b ∈ bs → i ∈ b → (i < n)%nat).

(** One step of the construction of [labels_map]: the pair (index,
    character) is entered under the character. *)
Definition put_label (m : gmap ascii nat) (p : nat * ascii) : gmap ascii nat :=
  <[p.2 := p.1]> m.

(** The character a label index stands for: [labels[i]].  [None], which
    [parse_transcript] never returns, stands for nothing. *)
Definition label_char (labels : list ascii) (v : option nat) : option ascii :=
  v ≫= λ i, labels !! i.

(** The characters of a transcript that [parse_transcript] turns into a
    label: not a newline, and mapped to an index other than 0. *)
Definition kept (labels_map : gmap ascii nat) (c : ascii) : Prop :=
  c ≠ newline ∧ truthy (labels_map !! c) = true.

(** [m] consecutive chunks of [b] items. *)
Definition chunks {X} (b m : nat) (l : list X) : list (list X) :=
  (λ k, take b (drop (k * b) l)) <$> seq 0 m.

(* ================================================================== *)
(** * Sample data *)

(** Integer-valued elements, for the examples. *)
Global Instance Z_dtype : Dtype Z := 0.

(** A [rows] by [cols] spectrogram with recognisable, non-zero entries. *)
Definition spect (rows cols : nat) (base : Z) : Tensor2 Z :=
  mkTensor2 rows cols (λ r c, base + 10 * Z.of_nat r + Z.of_nat c).

Definition ex_short : Sample Z := (spect 2 1 100, [3; 1]).
Definition ex_long : Sample Z := (spect 2 3 200, [2]).
Definition ex_wide : Sample Z := (spect 3 1 300, [1]).

(** Two samples of feature dimension 2, the shorter one first. *)
Definition ex_batch : list (Sample Z) := [ex_short; ex_long].

(** The samples of [ex_batch], the longer one first. *)
Definition ex_batch_swapped : list (Sample Z) := [ex_long; ex_short].

(** A sample of one frame with [k] labels, all 0. *)
Definition ex_many (k : nat) : Sample Z := (spect 1 1 0, replicate k 0).

(** Two samples of 2^30 labels each: every label count fits an IntTensor,
    their sum, 2^31, does not. *)
Definition ex_huge_batch : list (Sample Z) :=
  [ex_many (Z.to_nat (2 ^ 30)); ex_many (Z.to_nat (2 ^ 30))].

(** Two samples whose feature dimensions differ (2 and 3). *)
Definition ex_mismatch : list (Sample Z) := [ex_short; ex_wide].

(** A small generator for the examples: its state is a counter, and a
    shuffle rotates the sequence to the left by the counter. *)
Global Instance counter_random : RandomState nat :=
  λ X xs g, (rotate g xs, S g).

(** Seven samples, as a data source with a length. *)
Definition ex_source : list nat := [10; 11; 12; 13; 14; 15; 16]%nat.

(** Five samples, as a data source with a length. *)
Definition ex_small : list nat := [10; 11; 12; 13; 14]%nat.

(** A transcript file and an alphabet whose first character is the blank. *)
Definition ex_labels : list ascii := ["_"; "a"; "b"]%char.
Definition ex_text : list ascii := ["a"; "_"; "b"; "010"; "z"; "a"]%char.
Definition ex_fs : filesystem :=
  λ path,
    if decide (path = "utt1.txt") then Ok ex_text
    else if decide (path = "latin1.txt") then Raise UnicodeDecodeError
    else Raise FileNotFoundError.

(** A dataset of three samples of feature dimension 2. *)
Definition ex_dataset : list (Sample Z) :=
  [ex_short; ex_long; (spect 2 2 400, [1; 2; 3])].

(** An alphabet that holds the newline character, at index 1. *)
Definition ex_labels_nl : list ascii := ["_"; "010"; "a"; "b"]%char.

(* ================================================================== *)
(** * Facts about the Python runtime *)

Section sorting.
Context {X : Type} (key : X → Z).
Implicit Types (x : X) (xs : list X).

Lemma insert_by_perm x xs : insert_by key x xs ≡ₚ x :: xs.
Proof.
  induction xs as [|y xs IH]; simpl; [done|].
  case_match; [done|]. rewrite IH. apply Permutation_swap.
Qed.

Lemma list_sort_perm xs : list_sort key xs ≡ₚ xs.
Proof.
  induction xs as [|x xs IH]; simpl; [done|].
  by rewrite insert_by_perm, IH.
Qed.

Lemma list_sort_length xs : length (list_sort key xs) = length xs.
Proof. by rewrite list_sort_perm. Qed.

Lemma insert_by_ascending x xs :
  ascending key xs → ascending key (insert_by key x xs).
Proof.
  unfold ascending. induction 1 as [|y xs Hs IH Hy]; simpl.
  - repeat constructor.
  - destruct (Z.leb_spec (key x) (key y)) as [Hle|Hgt].
    + constructor; [by constructor|].
      constructor; [done|].
      eapply Forall_impl; [exact Hy|]. simpl. intros; lia.
    + constructor; [done|].
      rewrite insert_by_perm. constructor; [lia|done].
Qed.

Lemma list_sort_ascending xs : ascending key (list_sort key xs).
Proof.
  induction xs; simpl; [constructor|]. by apply insert_by_ascending.
Qed.

(** Stability, seen through the items of one key: inserting [x] in front
    of the first item whose key is not smaller leaves [x] before every
    item of its own key. *)
Lemma insert_by_filter k x xs :
  filter (λ y, key y = k) (insert_by key x xs)
  = filter (λ y, key y = k) (x :: xs).
Proof.
  induction xs as [|y xs IH]; simpl; [done|].
  destruct (Z.leb_spec (key x) (key y)) as [Hle|Hgt]; [done|].
  rewrite filter_cons, IH, !filter_cons.
  repeat case_decide; try done; lia.
Qed.

Lemma list_sort_stable k xs :
  filter (λ y, key y = k) (list_sort key xs) = filter (λ y, key y = k) xs.
Proof.
  induction xs as [|x xs IH]; simpl; [done|].
  by rewrite insert_by_filter, !filter_cons, IH.
Qed.

(** A list already in ascending key order is left as it is. *)
Lemma list_sort_ascending_id xs : ascending key xs → list_sort key xs = xs.
Proof.
  unfold ascending. induction 1 as [|x xs Hs IH Hx]; simpl; [done|].
  rewrite IH. destruct Hx as [|y ys Hy _]; simpl; [done|].
  destruct (Z.leb_spec (key x) (key y)); [done|lia].
Qed.

(** The result of a stable sort does not depend on how it is computed: a
    list in ascending key order that has, for every key, the items of that
    key in the order of [xs] is [list_sort key xs]. *)
Lemma ascending_filter_eq xs ys :
  ascending key xs → ascending key ys →
  (∀ k, filter (λ y, key y = k) xs = filter (λ y, key y = k) ys) →
  xs = ys.
Proof.
  unfold ascending. intros Hxs. revert ys.
  induction Hxs as [|a xs Hxs IH Ha]; intros ys Hys Hfilter.
  - destruct ys as [|b ys]; [done|].
    specialize (Hfilter (key b)). rewrite filter_cons_True in Hfilter by done.
    done.
  - destruct Hys as [|b ys Hys Hb].
    { specialize (Hfilter (key a)).
      rewrite filter_cons_True in Hfilter by done. done. }
    assert (Hkey : key a = key b).
    { destruct (Z.lt_total (key a) (key b)) as [Hlt|[Heq|Hgt]]; [|done|].
      - pose proof (Hfilter (key a)) as Hf.
        rewrite filter_cons_True, filter_cons_False in Hf by (done || lia).
        assert (Hin : a ∈ filter (λ y, key y = key a) ys)
          by (rewrite <- Hf; apply list_elem_of_here).
        apply list_elem_of_filter in Hin as [_ Hin].
        rewrite Forall_forall in Hb. specialize (Hb _ Hin). lia.
      - pose proof (Hfilter (key b)) as Hf.
        rewrite (filter_cons_True _ b), filter_cons_False in Hf
          by (done || lia).
        assert (Hin : b ∈ filter (λ y, key y = key b) xs)
          by (rewrite Hf; apply list_elem_of_here).
        apply list_elem_of_filter in Hin as [_ Hin].
        rewrite Forall_forall in Ha. specialize (Ha _ Hin). lia. }
    pose proof (Hfilter (key a)) as Hf.
    rewrite filter_cons_True, (filter_cons_True _ b) in Hf by done.
    injection Hf as -> Hf. f_equal. apply IH; [done|].
    intros k. specialize (Hfilter k). rewrite !filter_cons in Hfilter.
    destruct (decide (key b = k)); [|done]. by injection Hfilter.
Qed.

Lemma stable_sort_unique xs ys :
  ascending key ys →
  (∀ k, filter (λ y, key y = k) ys = filter (λ y, key y = k) xs) →
  ys = list_sort key xs.
Proof.
  intros Hys Hfilter. apply ascending_filter_eq; [done|..].
  - apply list_sort_ascending.
  - intros k. by rewrite Hfilter, list_sort_stable.
Qed.

Lemma ascending_lookup xs i j a b :
  ascending key xs → (i ≤ j)%nat → xs !! i = Some a → xs !! j = Some b →
  key a ≤ key b.
Proof.
  unfold ascending. intros Hs. revert i j.
  induction Hs as [|x xs Hs IH Hx]; intros i j Hij Hi Hj; [done|].
  destruct i as [|i], j as [|j]; simpl in *; simplify_eq; try lia.
  - rewrite Forall_forall in Hx. apply Hx.
    apply list_elem_of_lookup. eauto.
  - eapply (IH i j); [lia|done..].
Qed.
End sorting.

Lemma slice_bound_inside (n : nat) (i : Z) :
  0 ≤ i ≤ Z.of_nat n → slice_bound n i = Z.to_nat i.
Proof.
  intros Hi. unfold slice_bound.
  destruct (Z.ltb_spec i 0); [lia|]. f_equal. lia.
Qed.

(** A slice whose bounds fall on the seams of [pre ++ mid ++ post]. *)
Lemma slice_app_middle {X} (pre mid post : list X) :
  slice (pre ++ mid ++ post) (Z.of_nat (length pre))
        (Z.of_nat (length pre) + Z.of_nat (length mid)) = mid.
Proof.
  unfold slice. rewrite !length_app.
  rewrite !slice_bound_inside by lia.
  rewrite Nat2Z.id.
  replace (Z.to_nat (Z.of_nat (length pre) + Z.of_nat (length mid))
           - length pre)%nat with (length mid) by lia.
  rewrite drop_app_length. by rewrite take_app_length.
Qed.

(** A sum inside the 32-bit range does not wrap. *)
Lemma wrap_int32_inside (z : Z) : - 2 ^ 31 ≤ z < 2 ^ 31 → wrap_int32 z = z.
Proof.
  intros Hz. unfold wrap_int32.
  change (2 ^ 32) with 4294967296 in *. change (2 ^ 31) with 2147483648 in *.
  rewrite Z.mod_small by lia. lia.
Qed.

Lemma split_from_concat (pre : list Z) (ls : list (list Z)) (post : list Z) :
  Z.of_nat (length pre + length (concat ls)) < 2 ^ 31 →
  split_from (pre ++ concat ls ++ post) (Z.of_nat (length pre))
             ((λ l, Z.of_nat (length l)) <$> ls) = ls.
Proof.
  revert pre. induction ls as [|l ls IH]; intros pre Hfit; [done|].
  rewrite fmap_cons. cbn [split_from concat] in *.
  rewrite length_app in Hfit.
  rewrite wrap_int32_inside
    by (change (2 ^ 31) with 2147483648 in *; lia).
  f_equal.
  - rewrite <- (app_assoc l). apply slice_app_middle.
  - replace (Z.of_nat (length pre) + Z.of_nat (length l))
      with (Z.of_nat (length (pre ++ l))) by (rewrite length_app; lia).
    rewrite <- (app_assoc l), (app_assoc pre l). apply IH.
    rewrite length_app. lia.
Qed.

Lemma split_targets_concat (ls : list (list Z)) :
  Z.of_nat (length (concat ls)) < 2 ^ 31 →
  split_targets (concat ls) ((λ l, Z.of_nat (length l)) <$> ls) = ls.
Proof.
  intros Hfit. pose proof (split_from_concat [] ls [] Hfit) as H.
  cbn [app length Z.of_nat] in H. by rewrite app_nil_r in H.
Qed.

Lemma concat_perm {X} (ls1 ls2 : list (list X)) :
  ls1 ≡ₚ ls2 → concat ls1 ≡ₚ concat ls2.
Proof.
  induction 1 as [|l ls1 ls2 _ IH|l1 l2 ls|ls1 ls2 ls3 _ IH1 _ IH2];
    cbn [concat].
  - done.
  - by rewrite IH.
  - rewrite !app_assoc. by rewrite (Permutation_app_comm l2 l1).
  - by rewrite IH1.
Qed.

Lemma concat_length_sum {X} (ls : list (list X)) :
  length (concat ls) = sum_list (length <$> ls).
Proof.
  induction ls as [|l ls IH]; simpl; [done|].
  rewrite length_app, IH. reflexivity.
Qed.

(* ================================================================== *)
(** * The collation loop *)

Lemma take_S_insert (l : list Z) (k : nat) (v : Z) :
  (k < length l)%nat → take (S k) (<[k := v]> l) = take k l ++ [v].
Proof.
  intros Hk.
  rewrite (take_S_r _ _ v) by by apply list_lookup_insert_eq.
  by rewrite take_insert_ge by lia.
Qed.

(** One iteration at a position inside the tensors, for a sample that fits:
    nothing raises. *)
Lemma collate_body_ok {elt} (n h w k : nat) (acc : Acc elt) (x : Sample elt) :
  shape (acc_inputs acc) = (n, 1%nat, h, w) →
  length (acc_input_lengths acc) = n →
  length (acc_target_sizes acc) = n →
  (k < n)%nat →
  sample_ok h x = true →
  (frame_count x ≤ w)%nat →
  collate_body acc (k, x)
  = Ok (mkAcc
          (mkTensor4 (n, 1%nat, h, w)
             (λ a b r c,
                if (a =? k)%nat && (b =? 0)%nat && (r <? h)%nat
                   && (c <? frame_count x)%nat
                then item x.1 r c
                else item4 (acc_inputs acc) a b r c))
          (<[k := Z.of_nat (frame_count x)]> (acc_input_lengths acc))
          (<[k := Z.of_nat (label_count x)]> (acc_target_sizes acc))
          (acc_targets acc ++ x.2)).
Proof.
  intros Hshape Hlens Hsizes Hk Hx Hxw.
  unfold sample_ok in Hx.
  apply andb_true_iff in Hx as [Hx Hlabels].
  apply andb_true_iff in Hx as [Hx Hcount].
  apply andb_true_iff in Hx as [Hdim Hframes].
  apply Nat.eqb_eq in Hdim.
  unfold frame_count, feature_dim, label_count in *.
  unfold collate_body, setitem, narrow_copy_.
  rewrite Hshape, Hlens, Hsizes, Hframes, Hcount.
  destruct (Nat.ltb_spec k n); [|lia].
  destruct (Nat.leb_spec (size x.1 1) w); [|lia].
  unfold broadcasts. rewrite Hdim, !Nat.eqb_refl. done.
Qed.

(** The loop from position [k] on, over the samples [rest] that are still to
    come: it runs to the end, writes entries [k..] of both length tensors,
    appends the labels, and copies each sample into its row block. *)
Lemma collate_loop {elt} (n h w : nat) (rest : list (Sample elt)) :
  ∀ (k : nat) (acc : Acc elt),
  shape (acc_inputs acc) = (n, 1%nat, h, w) →
  length (acc_input_lengths acc) = n →
  length (acc_target_sizes acc) = n →
  (k + length rest)%nat = n →
  Forall (λ x, sample_ok h x = true ∧ (frame_count x ≤ w)%nat) rest →
  ∃ acc',
    for_each collate_body acc (enumerate_from k rest) = Ok acc'
    ∧ shape (acc_inputs acc') = (n, 1%nat, h, w)
    ∧ acc_input_lengths acc'
      = take k (acc_input_lengths acc)
        ++ ((λ x, Z.of_nat (frame_count x)) <$> rest)
    ∧ acc_target_sizes acc'
      = take k (acc_target_sizes acc)
        ++ ((λ x, Z.of_nat (label_count x)) <$> rest)
    ∧ acc_targets acc' = acc_targets acc ++ concat (snd <$> rest)
    ∧ ∀ a b r c,
        item4 (acc_inputs acc') a b r c =
        match rest !! (a - k)%nat with
        | Some x =>
            if bool_decide (k ≤ a)%nat && (b =? 0)%nat && (r <? h)%nat
               && (c <? frame_count x)%nat
            then item x.1 r c
            else item4 (acc_inputs acc) a b r c
        | None => item4 (acc_inputs acc) a b r c
        end.
Proof.
  induction rest as [|x rest IH]; intros k acc Hshape Hlens Hsizes Hn Hok.
  - simpl in *. exists acc. rewrite !app_nil_r.
    rewrite !take_ge by lia. done.
  - simpl in Hn. apply Forall_cons in Hok as [[Hx Hxw] Hok].
    cbn [for_each enumerate_from].
    rewrite (collate_body_ok n h w) by (done || lia). cbn [bind].
    match goal with |- ∃ _, for_each _ ?a _ = _ ∧ _ => set (acc1 := a) end.
    destruct (IH (S k) acc1) as (acc' & Hrun & Hsh & Hl & Hs & Ht & Hitem);
      subst acc1; simpl; try done.
    { by rewrite length_insert. }
    { by rewrite length_insert. }
    { lia. }
    exists acc'. simpl in *. split_and!; try done.
    + rewrite Hl, take_S_insert by lia. by rewrite <- app_assoc.
    + rewrite Hs, take_S_insert by lia. by rewrite <- app_assoc.
    + rewrite Ht. by rewrite <- app_assoc.
    + intros a b r c. rewrite Hitem. clear Hitem Hrun Hl Hs Ht IH.
      destruct (decide (a < k)%nat) as [Hlt|Hge].
      * replace (a - k)%nat with 0%nat by lia.
        replace (a - S k)%nat with 0%nat by lia. simpl.
        rewrite (bool_decide_eq_false_2 (k ≤ a)%nat) by lia.
        destruct (Nat.eqb_spec a k); [lia|]. simpl.
        destruct (rest !! 0%nat); [|done].
        by rewrite (bool_decide_eq_false_2 (S k ≤ a)%nat) by lia.
      * destruct (decide (a = k)) as [->|Hne].
        -- rewrite Nat.sub_diag. simpl.
           replace (k - S k)%nat with 0%nat by lia.
           rewrite (bool_decide_eq_true_2 (k ≤ k)%nat) by lia.
           rewrite Nat.eqb_refl. simpl.
           destruct (rest !! 0%nat);
             [by rewrite (bool_decide_eq_false_2 (S k ≤ k)%nat) by lia|done].
        -- replace (a - k)%nat with (S (a - S k)) by lia. simpl.
           destruct (Nat.eqb_spec a k); [lia|]. simpl.
           destruct (rest !! (a - S k)%nat); [|done].
           rewrite (bool_decide_eq_true_2 (S k ≤ a)%nat) by lia.
           by rewrite (bool_decide_eq_true_2 (k ≤ a)%nat) by lia.
Qed.

(* ================================================================== *)
(** * audio_seq_collate_fn on a valid batch *)

Lemma valid_batch_inv {elt} (batch : list (Sample elt)) :
  valid_batch batch = true →
  ∃ h, batch ≠ [] ∧ Forall (λ x, sample_ok h x = true) batch.
Proof.
  destruct batch as [|x0 tl]; [done|]. unfold valid_batch.
  intros Hall. exists (feature_dim x0). split; [done|].
  apply Forall_forall. intros x Hx. rewrite forallb_forall in Hall.
  apply Hall. by apply list_elem_of_In.
Qed.

Lemma sample_ok_feature_dim {elt} (h : nat) (x : Sample elt) :
  sample_ok h x = true → feature_dim x = h.
Proof.
  unfold sample_ok. rewrite !andb_true_iff, Nat.eqb_eq. tauto.
Qed.

Lemma sample_ok_labels {elt} (h : nat) (x : Sample elt) :
  sample_ok h x = true → forallb fits_int32 x.2 = true.
Proof. unfold sample_ok. rewrite !andb_true_iff. tauto. Qed.

Lemma labels_fit {elt} (h : nat) (xs : list (Sample elt)) :
  Forall (λ x, sample_ok h x = true) xs →
  forallb fits_int32 (concat (snd <$> xs)) = true.
Proof.
  induction 1 as [|x xs Hx _ IH]; [done|].
  rewrite fmap_cons. cbn [concat].
  rewrite forallb_app, IH, (sample_ok_labels h x Hx). done.
Qed.

(** After the sort, the first sample is a longest one. *)
Lemma sorted_head_longest {elt} (x0 : Sample elt) (tl : list (Sample elt)) :
  ascending sort_key (x0 :: tl) →
  Forall (λ x, (frame_count x ≤ frame_count x0)%nat) (x0 :: tl).
Proof.
  intros Hs. apply Forall_forall. intros x Hx.
  apply list_elem_of_lookup in Hx as [j Hj].
  pose proof (ascending_lookup sort_key _ 0 j x0 x Hs) as Hle.
  unfold sort_key, frame_count in *. specialize (Hle ltac:(lia) eq_refl Hj).
  lia.
Qed.

(** What the function does on a valid batch, in full: it returns, and every
    component of the result is determined by the sorted list. *)
Lemma collate_valid `{Dtype elt} (batch : list (Sample elt)) :
  valid_batch batch = true →
  ∃ (x0 : Sample elt) (out : Batch elt),
    head (list_sort sort_key batch) = Some x0
    ∧ audio_seq_collate_fn batch = (list_sort sort_key batch, Ok out)
    ∧ shape (inputs out)
      = (length batch, 1%nat, feature_dim x0, frame_count x0)
    ∧ Forall (λ x, (frame_count x ≤ frame_count x0)%nat) batch
    ∧ Forall (λ x, feature_dim x = feature_dim x0) batch
    ∧ input_lengths out
      = (λ x, Z.of_nat (frame_count x)) <$> list_sort sort_key batch
    ∧ target_sizes out
      = (λ x, Z.of_nat (label_count x)) <$> list_sort sort_key batch
    ∧ targets out = concat (snd <$> list_sort sort_key batch)
    ∧ ∀ a b r c,
        item4 (inputs out) a b r c =
        match list_sort sort_key batch !! a with
        | Some x =>
            if (b =? 0)%nat && (r <? feature_dim x0)%nat
               && (c <? frame_count x)%nat
            then item x.1 r c
            else zero
        | None => zero
        end.
Proof.
  intros Hvalid. apply valid_batch_inv in Hvalid as (h & Hne & Hok).
  pose proof (list_sort_perm sort_key batch) as Hperm.
  pose proof (list_sort_ascending sort_key batch) as Hasc.
  pose proof (list_sort_length sort_key batch) as Hlen.
  unfold audio_seq_collate_fn.
  set (sorted := list_sort sort_key batch) in *.
  assert (Hok' : Forall (λ x, sample_ok h x = true) sorted)
    by by rewrite Hperm.
  destruct sorted as [|x0 tl] eqn:Hsorted.
  { destruct batch; [done|]. simpl in Hlen. lia. }
  pose proof (sorted_head_longest x0 tl Hasc) as Hlong.
  assert (Hh : feature_dim x0 = h).
  { apply sample_ok_feature_dim. by apply Forall_cons in Hok' as [? _]. }
  destruct (collate_loop (length (x0 :: tl)) h (frame_count x0) (x0 :: tl) 0
              (mkAcc (torch_zeros (length (x0 :: tl)) 1 (size x0.1 0)
                        (size x0.1 1))
                 (IntTensor_new (length (x0 :: tl)))
                 (IntTensor_new (length (x0 :: tl))) []))
    as (acc & Hrun & Hshape & Hl & Hs & Ht & Hitem).
  { simpl. by rewrite <- Hh. }
  { simpl. by rewrite length_replicate. }
  { simpl. by rewrite length_replicate. }
  { done. }
  { apply Forall_forall. intros x Hx. split.
    - by eapply (proj1 (Forall_forall _ _) Hok').
    - by eapply (proj1 (Forall_forall _ _) Hlong). }
  exists x0.
  exists (mkBatch (acc_inputs acc) (acc_targets acc) (acc_input_lengths acc)
            (acc_target_sizes acc)).
  split; [done|]. split.
  { f_equal. unfold collate_sorted. cbn [getitem0 bind].
    unfold enumerate. rewrite Hrun. cbn [bind].
    unfold IntTensor_of_list. rewrite Ht. cbn [acc_targets app].
    by rewrite (labels_fit h _ Hok'). }
  simpl inputs. simpl input_lengths. simpl target_sizes. simpl targets.
  rewrite Hshape, Hl, Hs, Ht. rewrite Hlen, Hh. split_and!; try done.
  - by rewrite <- Hperm.
  - rewrite <- Hperm. eapply Forall_impl; [exact Hok'|]. simpl.
    intros x Hx. by apply sample_ok_feature_dim.
  - intros a b r c. rewrite Hitem. rewrite Nat.sub_0_r. simpl acc_inputs.
    destruct ((x0 :: tl) !! a); [|done].
    rewrite (bool_decide_eq_true_2 (0 ≤ a)%nat) by lia. done.
Qed.

(* ================================================================== *)
(** * Properties of audio_seq_collate_fn *)

Lemma sort_key_frame_count {elt} (n : nat) (xs : list (Sample elt)) :
  filter (λ x, frame_count x = n) xs
  = filter (λ x, sort_key x = - Z.of_nat n) xs.
Proof.
  apply list_filter_iff. intros x. unfold sort_key, frame_count. lia.
Qed.

Lemma sorted_lengths_non_increasing {elt} (xs : list (Sample elt)) :
  ascending sort_key xs →
  non_increasing ((λ x, Z.of_nat (frame_count x)) <$> xs).
Proof.
  intros Hasc i j a b Hij Hi Hj.
  apply list_lookup_fmap_Some in Hi as (x & -> & Hx).
  apply list_lookup_fmap_Some in Hj as (y & -> & Hy).
  pose proof (ascending_lookup sort_key xs i j x y Hasc Hij Hx Hy) as Hle.
  unfold sort_key, frame_count in *. lia.
Qed.

(** C1, as the code has it: for every valid batch (not empty, one feature
    dimension, sizes and labels representable in an IntTensor),
    audio_seq_collate_fn returns a batch whose samples are the given ones in
    descending frame-count order: input_lengths is non-increasing, and
    samples with equal frame count keep their original relative order. *)
Theorem collate_orders_by_descending_frames `{Dtype elt}
    (batch : list (Sample elt)) :
  valid_batch batch = true →
  ∃ (sorted : list (Sample elt)) (out : Batch elt),
    audio_seq_collate_fn batch = (sorted, Ok out)
    ∧ sorted ≡ₚ batch
    ∧ input_lengths out = (λ x, Z.of_nat (frame_count x)) <$> sorted
    ∧ target_sizes out = (λ x, Z.of_nat (label_count x)) <$> sorted
    ∧ targets out = concat (snd <$> sorted)
    ∧ non_increasing (input_lengths out)
    ∧ ∀ n : nat,
        filter (λ x, frame_count x = n) sorted
        = filter (λ x, frame_count x = n) batch.
Proof.
  intros Hvalid.
  destruct (collate_valid batch Hvalid)
    as (x0 & out & _ & Hcall & _ & _ & _ & Hl & Hs & Ht & _).
  exists (list_sort sort_key batch), out. split_and!; try done.
  - apply list_sort_perm.
  - rewrite Hl. apply sorted_lengths_non_increasing, list_sort_ascending.
  - intros n. rewrite !sort_key_frame_count. apply list_sort_stable.
Qed.

Lemma collate_orders_by_descending_frames_witness :
  valid_batch ex_batch = true
  ∧ ∃ (sorted : list (Sample Z)) (out : Batch Z),
      audio_seq_collate_fn ex_batch = (sorted, Ok out)
      ∧ sorted ≡ₚ ex_batch
      ∧ input_lengths out = (λ x, Z.of_nat (frame_count x)) <$> sorted
      ∧ target_sizes out = (λ x, Z.of_nat (label_count x)) <$> sorted
      ∧ targets out = concat (snd <$> sorted)
      ∧ non_increasing (input_lengths out)
      ∧ ∀ n : nat,
          filter (λ x, frame_count x = n) sorted
          = filter (λ x, frame_count x = n) ex_batch.
Proof.
  split; [reflexivity|].
  apply (collate_orders_by_descending_frames ex_batch). reflexivity.
Defined.

(** C1 as stated fails on a non-empty list whose samples differ in feature
    dimension: the copy of the second sample raises and no batch is
    returned. *)
Lemma collate_mismatch_raises :
  ex_mismatch ≠ []
  ∧ feature_dim <$> ex_mismatch = [2; 3]%nat
  ∧ (audio_seq_collate_fn ex_mismatch).2 = Raise RuntimeError.
Proof. split_and!; [done|reflexivity|reflexivity]. Qed.

Lemma total_labels_of_sorted {elt} (batch : list (Sample elt)) :
  length (concat (snd <$> list_sort sort_key batch))
  = sum_list (label_count <$> batch).
Proof.
  rewrite (concat_perm _ (snd <$> batch))
    by by rewrite (list_sort_perm sort_key batch).
  by rewrite concat_length_sum, <- list_fmap_compose.
Qed.

(** C3, as the code has it: on a valid batch whose label counts sum to less
    than 2^31, split_targets applied to the flattened labels and the target
    sizes that audio_seq_collate_fn returns gives back the label sequences
    of the samples, in the order of the sorted batch.  (The running offset
    of split_targets is a 32-bit sum.) *)
Theorem split_targets_roundtrip `{Dtype elt} (batch : list (Sample elt)) :
  valid_batch batch = true →
  Z.of_nat (sum_list (label_count <$> batch)) < 2 ^ 31 →
  ∃ out : Batch elt,
    audio_seq_collate_fn batch = (list_sort sort_key batch, Ok out)
    ∧ split_targets (targets out) (target_sizes out)
      = snd <$> list_sort sort_key batch.
Proof.
  intros Hvalid Hfit.
  destruct (collate_valid batch Hvalid)
    as (x0 & out & _ & Hcall & _ & _ & _ & _ & Hs & Ht & _).
  exists out. split; [done|]. rewrite Hs, Ht.
  pose proof (split_targets_concat (snd <$> list_sort sort_key batch)) as Hrt.
  rewrite <- list_fmap_compose in Hrt. apply Hrt.
  by rewrite total_labels_of_sorted.
Qed.

Lemma split_targets_roundtrip_witness :
  valid_batch ex_batch = true
  ∧ Z.of_nat (sum_list (label_count <$> ex_batch)) < 2 ^ 31
  ∧ ∃ out : Batch Z,
      audio_seq_collate_fn ex_batch = (list_sort sort_key ex_batch, Ok out)
      ∧ split_targets (targets out) (target_sizes out)
        = snd <$> list_sort sort_key ex_batch.
Proof.
  split; [reflexivity|]. split; [reflexivity|].
  apply (split_targets_roundtrip ex_batch); reflexivity.
Defined.

Lemma forallb_fits_zeros (k : nat) : forallb fits_int32 (replicate k 0) = true.
Proof. induction k as [|k IH]; [done|]. cbn [replicate forallb]. by rewrite IH. Qed.

Lemma ex_many_ok (k : nat) : Z.of_nat k = 2 ^ 30 → sample_ok 1 (ex_many k) = true.
Proof.
  intros Hk. unfold sample_ok, label_count, ex_many. cbn [fst snd].
  rewrite length_replicate, Hk, forallb_fits_zeros. reflexivity.
Qed.

(** Two samples of [k] = 2^30 labels each: the batch is valid, the second
    stop offset 2^30 + 2^30 wraps around to -2^31, and the second piece
    comes back empty. *)
Lemma two_samples_of_2_30_labels (k : nat) :
  Z.of_nat k = 2 ^ 30 →
  valid_batch [ex_many k; ex_many k] = true
  ∧ ∃ out : Batch Z,
      audio_seq_collate_fn [ex_many k; ex_many k]
      = (list_sort sort_key [ex_many k; ex_many k], Ok out)
      ∧ target_sizes out = [2 ^ 30; 2 ^ 30]
      ∧ (snd <$> list_sort sort_key [ex_many k; ex_many k]) !! 1%nat
        = Some (replicate k 0)
      ∧ split_targets (targets out) (target_sizes out) !! 1%nat = Some []
      ∧ split_targets (targets out) (target_sizes out)
        ≠ snd <$> list_sort sort_key [ex_many k; ex_many k].
Proof.
  intros Hk.
  assert (Hvalid : valid_batch [ex_many k; ex_many k] = true).
  { unfold valid_batch. cbn [forallb].
    change (feature_dim (ex_many k)) with 1%nat.
    by rewrite (ex_many_ok k Hk). }
  split; [exact Hvalid|].
  destruct (collate_valid _ Hvalid)
    as (x0 & out & _ & Hcall & _ & _ & _ & _ & Hs & Ht & _).
  assert (Hsorted : list_sort sort_key [ex_many k; ex_many k]
                    = [ex_many k; ex_many k]).
  { cbn [list_sort insert_by]. by rewrite Z.leb_refl. }
  exists out. rewrite Hsorted in *.
  assert (Hsizes : target_sizes out = [2 ^ 30; 2 ^ 30]).
  { rewrite Hs. cbn [fmap list_fmap]. unfold label_count, ex_many.
    cbn [snd]. by rewrite length_replicate, Hk. }
  assert (Hsecond : split_targets (targets out) (target_sizes out) !! 1%nat
                    = Some []).
  { rewrite Hsizes, Ht. unfold split_targets. cbn [split_from lookup list_lookup].
    f_equal. unfold slice.
    replace (wrap_int32 (wrap_int32 (0 + 2 ^ 30) + 2 ^ 30)) with (- 2 ^ 31)
      by reflexivity.
    assert (Hlen : Z.of_nat (length (concat (snd <$> [ex_many k; ex_many k])))
                   = 2 ^ 31).
    { cbn [fmap list_fmap concat]. unfold ex_many. cbn [snd].
      rewrite !length_app, !length_replicate. cbn [length].
      change (2 ^ 31) with (2 ^ 30 + 2 ^ 30). lia. }
    unfold slice_bound at 1.
    replace (- 2 ^ 31 <? 0) with true by reflexivity.
    rewrite Hlen.
    replace (Z.to_nat (Z.max 0 (- 2 ^ 31 + 2 ^ 31))) with 0%nat by reflexivity.
    reflexivity. }
  assert (Hlabels : (snd <$> [ex_many k; ex_many k]) !! 1%nat
                    = Some (replicate k 0)) by reflexivity.
  split_and!; try done.
  intros Heq. rewrite Heq, Hlabels in Hsecond.
  injection Hsecond as Hnil. apply (f_equal length) in Hnil.
  rewrite length_replicate in Hnil. cbn [length] in Hnil.
  assert (0 < 2 ^ 30) by reflexivity. lia.
Qed.

(** C3 as stated fails on a valid batch whose label counts sum to 2^31: two
    samples of 2^30 labels each.  Each count fits the IntTensor, so the
    batch is collated; in split_targets the second stop offset wraps around
    to -2^31 and the second piece is empty, not the 2^30 labels of the
    second sample. *)
Lemma split_targets_wraps_on_huge_batch :
  valid_batch ex_huge_batch = true
  ∧ ∃ out : Batch Z,
      audio_seq_collate_fn ex_huge_batch
      = (list_sort sort_key ex_huge_batch, Ok out)
      ∧ target_sizes out = [2 ^ 30; 2 ^ 30]
      ∧ (snd <$> list_sort sort_key ex_huge_batch) !! 1%nat
        = Some (replicate (Z.to_nat (2 ^ 30)) 0)
      ∧ split_targets (targets out) (target_sizes out) !! 1%nat = Some []
      ∧ split_targets (targets out) (target_sizes out)
        ≠ snd <$> list_sort sort_key ex_huge_batch.
Proof.
  unfold ex_huge_batch.
  apply (two_samples_of_2_30_labels (Z.to_nat (2 ^ 30))).
  apply Z2Nat.id. apply Z.pow_nonneg. lia.
Qed.

(** The wrap-around on a small input: a size of 2^31 - 1 after an offset of
    2 gives a negative stop and an empty piece. *)
Example split_targets_wraps_small :
  split_targets [1; 2; 3; 4; 5] [2; 2147483647] = [[1; 2]; []].
Proof. reflexivity. Qed.

Lemma tensor_sum_lengths (ls : list (list Z)) :
  tensor_sum ((λ l, Z.of_nat (length l)) <$> ls)
  = Z.of_nat (length (concat ls)).
Proof.
  induction ls as [|l ls IH]; [done|].
  rewrite fmap_cons. cbn [tensor_sum foldr concat].
  fold (tensor_sum ((λ l, Z.of_nat (length l)) <$> ls)).
  rewrite IH, length_app. lia.
Qed.

(** C4: on a valid batch, the entries of target_sizes sum to the length of
    the flattened targets. *)
Theorem target_sizes_sum `{Dtype elt} (batch : list (Sample elt)) :
  valid_batch batch = true →
  ∃ out : Batch elt,
    (audio_seq_collate_fn batch).2 = Ok out
    ∧ tensor_sum (target_sizes out) = Z.of_nat (length (targets out)).
Proof.
  intros Hvalid.
  destruct (collate_valid batch Hvalid)
    as (x0 & out & _ & Hcall & _ & _ & _ & _ & Hs & Ht & _).
  exists out. rewrite Hcall. split; [done|]. rewrite Hs, Ht.
  pose proof (tensor_sum_lengths (snd <$> list_sort sort_key batch)) as Hsum.
  rewrite <- list_fmap_compose in Hsum. exact Hsum.
Qed.

Lemma target_sizes_sum_witness :
  valid_batch ex_batch = true
  ∧ ∃ out : Batch Z,
      (audio_seq_collate_fn ex_batch).2 = Ok out
      ∧ tensor_sum (target_sizes out) = Z.of_nat (length (targets out)).
Proof.
  split; [reflexivity|]. apply (target_sizes_sum ex_batch). reflexivity.
Defined.

(** C5: on a valid batch, the padded tensor has shape
    (N, 1, feature_dim, max_frame_count), both taken from the first sample
    of the sorted list, which is a longest one; sample i of the sorted list
    fills the first frame_count_i columns of channel 0 of block i, every
    position of block i from column frame_count_i on is zero, and
    input_lengths[i] is frame_count_i. *)
Theorem collate_pads_with_zeros `{Dtype elt} (batch : list (Sample elt)) :
  valid_batch batch = true →
  ∃ (x0 : Sample elt) (out : Batch elt),
    audio_seq_collate_fn batch = (list_sort sort_key batch, Ok out)
    ∧ head (list_sort sort_key batch) = Some x0
    ∧ shape (inputs out)
      = (length batch, 1%nat, feature_dim x0, frame_count x0)
    ∧ (∀ x, x ∈ batch →
         (frame_count x ≤ frame_count x0)%nat
         ∧ feature_dim x = feature_dim x0)
    ∧ length (input_lengths out) = length batch
    ∧ ∀ (i : nat) (x : Sample elt),
        list_sort sort_key batch !! i = Some x →
        input_lengths out !! i = Some (Z.of_nat (frame_count x))
        ∧ (∀ r c, (r < feature_dim x0)%nat → (c < frame_count x)%nat →
             item4 (inputs out) i 0 r c = item x.1 r c)
        ∧ (∀ ch r c, (frame_count x ≤ c)%nat →
             item4 (inputs out) i ch r c = zero).
Proof.
  intros Hvalid.
  destruct (collate_valid batch Hvalid)
    as (x0 & out & Hhd & Hcall & Hshape & Hlong & Hdim & Hl & _ & _ & Hitem).
  exists x0, out. split_and!; try done.
  - intros x Hx. rewrite Forall_forall in Hlong, Hdim. auto.
  - by rewrite Hl, length_fmap, list_sort_length.
  - intros i x Hi. split_and!.
    + by rewrite Hl, list_lookup_fmap, Hi.
    + intros r c Hr Hc. rewrite Hitem, Hi.
      destruct (Nat.ltb_spec r (feature_dim x0)); [|lia].
      destruct (Nat.ltb_spec c (frame_count x)); [|lia]. done.
    + intros ch r c Hc. rewrite Hitem, Hi.
      destruct (Nat.ltb_spec c (frame_count x)); [lia|].
      by rewrite !andb_false_r.
Qed.

Lemma collate_pads_with_zeros_witness :
  valid_batch ex_batch = true
  ∧ ∃ (x0 : Sample Z) (out : Batch Z),
      audio_seq_collate_fn ex_batch = (list_sort sort_key ex_batch, Ok out)
      ∧ head (list_sort sort_key ex_batch) = Some x0
      ∧ shape (inputs out)
        = (length ex_batch, 1%nat, feature_dim x0, frame_count x0)
      ∧ (∀ x, x ∈ ex_batch →
           (frame_count x ≤ frame_count x0)%nat
           ∧ feature_dim x = feature_dim x0)
      ∧ length (input_lengths out) = length ex_batch
      ∧ ∀ (i : nat) (x : Sample Z),
          list_sort sort_key ex_batch !! i = Some x →
          input_lengths out !! i = Some (Z.of_nat (frame_count x))
          ∧ (∀ r c, (r < feature_dim x0)%nat → (c < frame_count x)%nat →
               item4 (inputs out) i 0 r c = item x.1 r c)
          ∧ (∀ ch r c, (frame_count x ≤ c)%nat →
               item4 (inputs out) i ch r c = zero).
Proof.
  split; [reflexivity|].
  apply (collate_pads_with_zeros ex_batch). reflexivity.
Defined.

(** C6, as the code has it: the call has one effect on the caller's list,
    the in-place sort.  After the call the list holds the same samples, in
    the order of a stable sort by descending frame count; a list that was
    already in that order is unchanged. *)
Theorem collate_sorts_callers_list `{Dtype elt} (batch : list (Sample elt)) :
  (audio_seq_collate_fn batch).1 ≡ₚ batch
  ∧ non_increasing
      ((λ x, Z.of_nat (frame_count x)) <$> (audio_seq_collate_fn batch).1)
  ∧ (∀ n : nat,
       filter (λ x, frame_count x = n) (audio_seq_collate_fn batch).1
       = filter (λ x, frame_count x = n) batch)
  ∧ (ascending sort_key batch → (audio_seq_collate_fn batch).1 = batch).
Proof.
  unfold audio_seq_collate_fn. cbn [fst]. split_and!.
  - apply list_sort_perm.
  - apply sorted_lengths_non_increasing, list_sort_ascending.
  - intros n. rewrite !sort_key_frame_count. apply list_sort_stable.
  - apply list_sort_ascending_id.
Qed.

(** C6 as stated fails: a caller's list that starts with the shorter sample
    comes back with the longer one first. *)
Lemma collate_reorders_callers_list :
  frame_count <$> ex_batch = [1; 3]%nat
  ∧ frame_count <$> (audio_seq_collate_fn ex_batch).1 = [3; 1]%nat
  ∧ (audio_seq_collate_fn ex_batch).1 ≠ ex_batch.
Proof.
  split_and!; [reflexivity|reflexivity|].
  intros Heq. apply (f_equal (fmap frame_count)) in Heq. discriminate Heq.
Qed.

(** No iteration of the loop raises IndexError while the position stays
    inside the tensors. *)
Lemma collate_loop_no_index_error {elt} (n h w : nat)
    (rest : list (Sample elt)) :
  ∀ (k : nat) (acc : Acc elt),
  shape (acc_inputs acc) = (n, 1%nat, h, w) →
  length (acc_input_lengths acc) = n →
  length (acc_target_sizes acc) = n →
  (k + length rest)%nat = n →
  for_each collate_body acc (enumerate_from k rest) ≠ Raise IndexError.
Proof.
  induction rest as [|x rest IH]; intros k acc Hshape Hlens Hsizes Hn;
    [done|].
  simpl in Hn. cbn [enumerate_from for_each].
  unfold collate_body, setitem, narrow_copy_.
  rewrite Hshape, Hlens, Hsizes.
  destruct (Nat.ltb_spec k n); [|lia]. cbn [negb].
  destruct (fits_int32 (Z.of_nat (size x.1 1))); [|done]. cbn [negb bind].
  destruct (Nat.leb_spec (size x.1 1) w); [|done]. cbn [negb Nat.ltb Nat.leb].
  destruct (broadcasts (size x.1 0) h); [|done]. cbn [negb bind].
  destruct (fits_int32 (Z.of_nat (length x.2))); [|done]. cbn [negb bind].
  apply IH; cbn [acc_inputs acc_input_lengths acc_target_sizes shape];
    rewrite ?length_insert; try done. lia.
Qed.

(** C7: on the empty list the call fails: [batch[0]] raises IndexError
    before any tensor is built, and nothing is returned.  The empty list is
    the only input that makes the call raise IndexError. *)
Theorem collate_rejects_empty_batch `{Dtype elt} :
  audio_seq_collate_fn (@nil (Sample elt)) = ([], Raise IndexError)
  ∧ ∀ batch : list (Sample elt),
      (audio_seq_collate_fn batch).2 = Raise IndexError → batch = [].
Proof.
  split; [done|]. intros batch.
  unfold audio_seq_collate_fn. cbn [snd].
  pose proof (list_sort_length sort_key batch) as Hlen.
  destruct (list_sort sort_key batch) as [|x0 tl] eqn:Hsorted.
  { destruct batch; [done|]. simpl in Hlen. lia. }
  unfold collate_sorted. cbn [getitem0 bind]. unfold enumerate.
  pose proof (collate_loop_no_index_error (length (x0 :: tl)) (size x0.1 0)
                (size x0.1 1) (x0 :: tl) 0
                (mkAcc (torch_zeros (length (x0 :: tl)) 1 (size x0.1 0)
                          (size x0.1 1))
                   (IntTensor_new (length (x0 :: tl)))
                   (IntTensor_new (length (x0 :: tl))) [])) as Hno.
  destruct (for_each _ _ _) as [acc|e] eqn:Hrun.
  - cbn [bind]. unfold IntTensor_of_list. by destruct (forallb _ _).
  - cbn [bind]. intros [= ->]. exfalso. apply Hno; try done.
    + simpl. by rewrite length_replicate.
    + simpl. by rewrite length_replicate.
Qed.

(* ================================================================== *)
(** * Construction of the buckets *)

Lemma chunks_S {X} (b m : nat) (l : list X) :
  chunks b (S m) l = take b l :: chunks b m (drop b l).
Proof.
  unfold chunks. cbn [seq fmap list_fmap]. f_equal.
  rewrite <- fmap_S_seq, <- list_fmap_compose.
  apply list_fmap_ext. intros _ k _. simpl.
  by rewrite drop_drop.
Qed.

Lemma concat_chunks {X} (b m : nat) :
  ∀ l : list X, (length l ≤ m * b)%nat → concat (chunks b m l) = l.
Proof.
  induction m as [|m IH]; intros l Hlen.
  - destruct l; [done|]. simpl in Hlen. lia.
  - rewrite chunks_S. cbn [concat]. rewrite IH.
    + apply take_drop.
    + rewrite length_drop. lia.
Qed.

Lemma chunks_lookup {X} (b m k : nat) (l c : list X) :
  chunks b m l !! k = Some c → (k < m)%nat ∧ c = take b (drop (k * b) l).
Proof.
  unfold chunks. rewrite list_lookup_fmap.
  destruct (seq 0 m !! k) as [j|] eqn:Hj; [|done].
  apply lookup_seq in Hj as [-> ?]. simpl. by intros [= <-].
Qed.

(** The number of values of [range(0, n, step)] for a positive step. *)
Lemma range_len_bounds (n : nat) (step : Z) :
  1 ≤ step →
  Z.of_nat n ≤ Z.of_nat (range_len 0 (Z.of_nat n) step) * step
  ∧ (n ≠ 0%nat →
     (Z.of_nat (range_len 0 (Z.of_nat n) step) - 1) * step < Z.of_nat n).
Proof.
  intros Hstep. unfold range_len.
  destruct (Z.ltb_spec 0 step); [|lia].
  destruct (Z.ltb_spec 0 (Z.of_nat n)); [|split; [simpl; lia|lia]].
  rewrite Z.sub_0_r.
  pose proof (Z.div_mod (Z.of_nat n - 1) step ltac:(lia)) as Hdm.
  pose proof (Z.mod_pos_bound (Z.of_nat n - 1) step ltac:(lia)) as Hmod.
  assert (0 ≤ (Z.of_nat n - 1) / step) by (apply Z.div_pos; lia).
  rewrite Z2Nat.id by lia. split; [nia|]. intros _. nia.
Qed.

(** A slice that starts inside the list and spans [b] items. *)
Lemma slice_chunk {X} (l : list X) (k b : nat) :
  (k * b ≤ length l)%nat →
  slice l (Z.of_nat (k * b)) (Z.of_nat (k * b) + Z.of_nat b)
  = take b (drop (k * b) l).
Proof.
  intros Hk. unfold slice, slice_bound.
  destruct (Z.ltb_spec (Z.of_nat (k * b)) 0); [lia|].
  destruct (Z.ltb_spec (Z.of_nat (k * b) + Z.of_nat b) 0); [lia|].
  rewrite (Z.min_l (Z.of_nat (k * b))) by lia. rewrite Nat2Z.id.
  destruct (decide (k * b + b ≤ length l)%nat) as [Hfull|Hshort].
  - rewrite Z.min_l by lia. f_equal. lia.
  - rewrite Z.min_r by lia. rewrite Nat2Z.id.
    rewrite !take_ge; [done|rewrite length_drop; lia..].
Qed.

(** The bins that [__init__] builds are the consecutive chunks of the index
    list. *)
Lemma init_bins `{Sized D} (ds : D) (n : nat) (batch_size : Z) :
  py_len ds = Ok n →
  1 ≤ batch_size →
  BucketingSampler_init ds batch_size
  = Ok (mkSampler ds
          (chunks (Z.to_nat batch_size)
             (range_len 0 (Z.of_nat n) batch_size) (seq 0 n))).
Proof.
  intros Hlen Hbs. unfold BucketingSampler_init. rewrite Hlen. cbn [bind].
  rewrite length_seq. unfold range.
  destruct (Z.eqb_spec batch_size 0); [lia|]. cbn [bind].
  do 2 f_equal. unfold chunks. rewrite <- list_fmap_compose.
  apply list_fmap_ext. intros i k Hk. simpl.
  apply lookup_seq in Hk as [Hki Hk]. rewrite Nat.add_0_l in Hki. subst i.
  pose proof (range_len_bounds n batch_size Hbs) as [_ Hub].
  assert (Hin : (k * Z.to_nat batch_size ≤ length (seq 0 n))%nat).
  { rewrite length_seq. destruct (decide (n = 0%nat)) as [->|Hn].
    - unfold range_len in Hk. destruct (0 <? batch_size); simpl in Hk; lia.
    - specialize (Hub Hn). nia. }
  rewrite <- (slice_chunk (seq 0 n) k (Z.to_nat batch_size) Hin).
  f_equal; lia.
Qed.

(** Sizes of the constructed buckets: every bucket holds between one and
    [b] indices, and every bucket but the last holds exactly [b]. *)
Lemma chunks_sizes (n b m k : nat) (c : list nat) :
  (1 ≤ b)%nat →
  (n ≤ m * b)%nat →
  (n ≠ 0 → (m - 1) * b < n)%nat →
  (n = 0 → m = 0)%nat →
  chunks b m (seq 0 n) !! k = Some c →
  (1 ≤ length c ≤ b)%nat ∧ ((S k < m)%nat → length c = b).
Proof.
  intros Hb Hup Hlow Hzero Hc.
  apply chunks_lookup in Hc as [Hk ->].
  rewrite length_take, length_drop, length_seq.
  assert (n ≠ 0)%nat as Hn by lia. specialize (Hlow Hn).
  assert (k * b ≤ (m - 1) * b)%nat by (apply Nat.mul_le_mono_r; lia).
  split; [lia|]. intros HSk.
  assert (S k * b ≤ (m - 1) * b)%nat by (apply Nat.mul_le_mono_r; lia).
  lia.
Qed.

(* ================================================================== *)
(** * The buckets after iteration passes and shuffles *)

Lemma Forall2_same_buckets (bs1 bs2 : list (list nat)) :
  Forall2 (≡ₚ) bs1 bs2 → same_buckets bs1 bs2.
Proof.
  induction 1; [apply permA_nil|]. by apply permA_skip.
Qed.

Lemma Permutation_same_buckets (bs1 bs2 : list (list nat)) :
  bs1 ≡ₚ bs2 → same_buckets bs1 bs2.
Proof. apply Permutation_PermutationA. apply _. Qed.

Lemma same_buckets_concat (bs1 bs2 : list (list nat)) :
  same_buckets bs1 bs2 → concat bs1 ≡ₚ concat bs2.
Proof.
  induction 1 as [|b1 b2 bs1 bs2 Hb _ IH|b1 b2 bs|bs1 bs2 bs3 _ IH1 _ IH2];
    cbn [concat].
  - done.
  - by rewrite Hb, IH.
  - rewrite !app_assoc. by rewrite (Permutation_app_comm b2 b1).
  - by rewrite IH1.
Qed.

Lemma same_buckets_sizes (bs1 bs2 : list (list nat)) :
  same_buckets bs1 bs2 → length <$> bs1 ≡ₚ length <$> bs2.
Proof.
  induction 1 as [|b1 b2 bs1 bs2 Hb _ IH|b1 b2 bs|bs1 bs2 bs3 _ IH1 _ IH2].
  - done.
  - rewrite !fmap_cons. by rewrite Hb, IH.
  - rewrite !fmap_cons. apply Permutation_swap.
  - by rewrite IH1.
Qed.

Lemma sum_list_lengths (bs : list (list nat)) :
  sum_list (length <$> bs) = length (concat bs).
Proof.
  induction bs as [|b bs IH]; simpl; [done|].
  rewrite length_app, <- IH. reflexivity.
Qed.

Section generator.
Context `{RandomState G} (Hperm : shuffle_permutes G).

Lemma shuffle_each_Forall2 (bs : list (list nat)) :
  ∀ g : G, Forall2 (≡ₚ) (shuffle_each bs g).1 bs.
Proof.
  induction bs as [|ids bs IH]; intros g; cbn [shuffle_each].
  - constructor.
  - pose proof (Hperm _ ids g) as Hids.
    destruct (np_random_shuffle ids g) as [ids' g1].
    specialize (IH g1). destruct (shuffle_each bs g1) as [rest g2].
    by constructor.
Qed.

Lemma run_call_same_buckets {D} (c : call) (st : BucketingSampler D * G) :
  same_buckets (bins (run_call c st).1) (bins st.1)
  ∧ data_source (run_call c st).1 = data_source st.1.
Proof.
  destruct st as [s g], c as [|k|]; cbn [run_call fst snd].
  - unfold BucketingSampler_iter.
    pose proof (shuffle_each_Forall2 (bins s) g) as Hall.
    destruct (shuffle_each (bins s) g) as [bs g'].
    split; [|done]. by apply Forall2_same_buckets.
  - unfold generator_next.
    destruct (bins s !! k) as [ids|] eqn:Hk;
      [|split; [unfold same_buckets; reflexivity|done]].
    pose proof (Hperm _ ids g) as Hids.
    destruct (np_random_shuffle ids g) as [ids' g'].
    split; [|done]. apply Forall2_same_buckets. cbn [fst snd bins] in *.
    rewrite <- (list_insert_id (bins s) k ids Hk) at 2.
    apply Forall2_insert; [|done]. by apply Forall_Forall2_diag, Forall_true.
  - unfold BucketingSampler_shuffle.
    pose proof (Hperm _ (bins s) g) as Hbs.
    destruct (np_random_shuffle (bins s) g) as [bs g'].
    split; [|done]. by apply Permutation_same_buckets.
Qed.

Lemma run_calls_same_buckets {D} (cs : list call) :
  ∀ st : BucketingSampler D * G,
    same_buckets (bins (run_calls cs st).1) (bins st.1)
    ∧ data_source (run_calls cs st).1 = data_source st.1.
Proof.
  induction cs as [|c cs IH]; intros st.
  - split; [|done]. unfold same_buckets. reflexivity.
  - unfold run_calls. cbn [foldl]. fold (run_calls cs (run_call c st)).
    destruct (IH (run_call c st)) as [Hbs Hds].
    destruct (run_call_same_buckets c st) as [Hbs1 Hds1].
    split; [|congruence].
    unfold same_buckets in *. by etransitivity.
Qed.
End generator.

(** A pass run to exhaustion is the sequence of its steps: resuming the
    generator at positions 0, 1, ... leaves the sampler and the random
    generator as the whole loop does. *)
Lemma steps_from_position {D} `{RandomState G} (ds : D)
    (rest : list (list nat)) :
  ∀ (pre : list (list nat)) (g : G),
    run_calls (CallNext <$> seq (length pre) (length rest))
      (mkSampler ds (pre ++ rest), g)
    = (mkSampler ds (pre ++ (shuffle_each rest g).1), (shuffle_each rest g).2).
Proof.
  induction rest as [|ids rest IH]; intros pre g; [done|].
  cbn [length seq fmap list_fmap]. unfold run_calls. cbn [foldl].
  fold (CallNext <$> seq (S (length pre)) (length rest)).
  cbn [run_call fst snd]. unfold generator_next. cbn [bins data_source].
  rewrite list_lookup_middle by done. cbn [shuffle_each].
  destruct (np_random_shuffle ids g) as [ids' g1].
  specialize (IH (pre ++ [ids']) g1).
  rewrite length_app, Nat.add_1_r in IH. unfold run_calls in IH.
  rewrite insert_app_r_alt by done. rewrite Nat.sub_diag. cbn [insert list_insert].
  rewrite <- app_assoc in IH. cbn [app] in IH. rewrite IH.
  destruct (shuffle_each rest g1) as [rest' g2]. cbn [fst snd].
  by rewrite <- app_assoc.
Qed.

Lemma iter_as_steps {D} `{RandomState G} (s : BucketingSampler D) (g : G) :
  run_calls (CallNext <$> seq 0 (BucketingSampler_len s)) (s, g)
  = run_call CallIter (s, g).
Proof.
  destruct s as [ds bs]. unfold BucketingSampler_len. cbn [bins].
  pose proof (steps_from_position ds bs [] g) as Hsteps.
  cbn [length app] in Hsteps. rewrite Hsteps.
  cbn [run_call fst snd]. unfold BucketingSampler_iter. cbn [bins data_source].
  by destruct (shuffle_each bs g).
Qed.

Lemma NoDup_concat_one_bucket (bs : list (list nat)) :
  NoDup (concat bs) →
  ∀ i k1 k2 b1 b2,
    bs !! k1 = Some b1 → bs !! k2 = Some b2 → i ∈ b1 → i ∈ b2 → k1 = k2.
Proof.
  induction bs as [|b bs IH]; intros Hnd i k1 k2 b1 b2 H1 H2 Hi1 Hi2;
    [done|].
  cbn [concat] in Hnd. apply NoDup_app in Hnd as (_ & Hdisj & Hnd).
  assert (Hin : ∀ k c, bs !! k = Some c → i ∈ c → i ∈ concat bs).
  { intros k c Hk Hc. apply list_elem_of_In, in_concat. exists c.
    split; apply list_elem_of_In; [|done]. by eapply list_elem_of_lookup_2. }
  destruct k1 as [|k1], k2 as [|k2]; simpl in *; simplify_eq.
  - done.
  - exfalso. eapply Hdisj; [done|]. by eapply Hin.
  - exfalso. eapply Hdisj; [done|]. by eapply Hin.
  - f_equal. by eapply IH.
Qed.

(** Buckets whose concatenation is a rearrangement of [0, n) partition
    [0, n). *)
Lemma perm_partitions (n : nat) (bs : list (list nat)) :
  concat bs ≡ₚ seq 0 n → partitions n bs.
Proof.
  intros Hperm.
  assert (Hnd : NoDup (concat bs)) by (rewrite Hperm; apply NoDup_seq).
  assert (Hmem : ∀ i, i ∈ concat bs ↔ (i < n)%nat).
  { intros i. rewrite Hperm, elem_of_seq. lia. }
  split_and!.
  - intros i Hi. apply Hmem, list_elem_of_In, in_concat in Hi as (b & Hb & Hi).
    apply list_elem_of_In, list_elem_of_lookup in Hb as [k Hk].
    exists k, b. split; [done|]. by apply list_elem_of_In.
  - by apply NoDup_concat_one_bucket.
  - clear Hperm Hmem. induction bs as [|b bs IH]; [constructor|].
    cbn [concat] in Hnd. apply NoDup_app in Hnd as (Hb & _ & Hnd).
    constructor; auto.
  - intros b i Hb Hi. apply Hmem, list_elem_of_In, in_concat.
    exists b. split; by apply list_elem_of_In.
Qed.

Lemma counter_random_permutes : shuffle_permutes nat.
Proof.
  intros X xs g. unfold np_random_shuffle, counter_random. cbn [fst].
  unfold rotate. rewrite Permutation_app_comm. by rewrite take_drop.
Qed.

Lemma chunks_length {X} (b m : nat) (l : list X) : length (chunks b m l) = m.
Proof. unfold chunks. by rewrite length_fmap, length_seq. Qed.

(** C2: for every dataset size and every batch size of at least 1, the
    buckets built by the constructor partition [0, dataset_size): every
    index is in exactly one bucket exactly once, the bucket sizes sum to
    dataset_size, and every bucket but the last holds exactly batch_size
    indices.  Whatever passes of __iter__ (whole, or step by step) and calls
    of shuffle() follow, the buckets stay the same up to the order of the
    buckets and the order inside each, so they still partition the range. *)
Theorem buckets_partition_index_range `{Sized D} `{RandomState G}
    (ds : D) (n : nat) (batch_size : Z) :
  shuffle_permutes G →
  py_len ds = Ok n →
  1 ≤ batch_size →
  ∃ s : BucketingSampler D,
    BucketingSampler_init ds batch_size = Ok s
    ∧ concat (bins s) = seq 0 n
    ∧ partitions n (bins s)
    ∧ sum_list (length <$> bins s) = n
    ∧ (∀ k b, bins s !! k = Some b →
         1 ≤ Z.of_nat (length b) ≤ batch_size
         ∧ ((S k < BucketingSampler_len s)%nat →
            Z.of_nat (length b) = batch_size))
    ∧ ∀ (calls : list call) (g : G),
        same_buckets (bins (run_calls calls (s, g)).1) (bins s)
        ∧ partitions n (bins (run_calls calls (s, g)).1)
        ∧ sum_list (length <$> bins (run_calls calls (s, g)).1) = n.
Proof.
  intros Hperm Hlen Hbs.
  eexists. split; [by apply init_bins|]. cbn [bins].
  unfold BucketingSampler_len. cbn [bins]. rewrite chunks_length.
  pose proof (range_len_bounds n batch_size Hbs) as [Hup Hlow].
  set (m := range_len 0 (Z.of_nat n) batch_size) in *.
  set (b := Z.to_nat batch_size).
  assert (Hb : (1 ≤ b)%nat) by lia.
  assert (Hup' : (n ≤ m * b)%nat) by nia.
  assert (Hlow' : (n ≠ 0 → (m - 1) * b < n)%nat).
  { intros Hn. specialize (Hlow Hn). nia. }
  assert (Hzero : (n = 0 → m = 0)%nat).
  { intros ->. subst m. unfold range_len.
    destruct (0 <? batch_size); reflexivity. }
  assert (Hconcat : concat (chunks b m (seq 0 n)) = seq 0 n).
  { apply concat_chunks. by rewrite length_seq. }
  split_and!.
  - done.
  - apply perm_partitions. by rewrite Hconcat.
  - by rewrite sum_list_lengths, Hconcat, length_seq.
  - intros k c Hc.
    destruct (chunks_sizes n b m k c Hb Hup' Hlow' Hzero Hc) as [Hsz Hfull].
    split; [lia|]. intros Hk. specialize (Hfull Hk). lia.
  - intros calls g.
    destruct (run_calls_same_buckets Hperm calls
                (mkSampler ds (chunks b m (seq 0 n)), g)) as [Hsame _].
    cbn [fst bins] in Hsame.
    pose proof (same_buckets_concat _ _ Hsame) as Hcc.
    rewrite Hconcat in Hcc. split_and!.
    + done.
    + by apply perm_partitions.
    + by rewrite sum_list_lengths, Hcc, length_seq.
Qed.

Lemma buckets_partition_index_range_witness :
  shuffle_permutes nat
  ∧ py_len ex_source = Ok 7%nat
  ∧ 1 ≤ 3
  ∧ ∃ s : BucketingSampler (list nat),
      BucketingSampler_init ex_source 3 = Ok s
      ∧ concat (bins s) = seq 0 7
      ∧ partitions 7 (bins s)
      ∧ sum_list (length <$> bins s) = 7%nat
      ∧ (∀ k b, bins s !! k = Some b →
           1 ≤ Z.of_nat (length b) ≤ 3
           ∧ ((S k < BucketingSampler_len s)%nat →
              Z.of_nat (length b) = 3))
      ∧ ∀ (calls : list call) (g : nat),
          same_buckets (bins (run_calls calls (s, g)).1) (bins s)
          ∧ partitions 7 (bins (run_calls calls (s, g)).1)
          ∧ sum_list (length <$> bins (run_calls calls (s, g)).1) = 7%nat.
Proof.
  split; [exact counter_random_permutes|].
  split; [reflexivity|]. split; [lia|].
  apply (buckets_partition_index_range ex_source 7 3);
    [exact counter_random_permutes|reflexivity|lia].
Defined.

(** The sampler [__init__] builds depends on the data source only through
    its length. *)
Lemma init_depends_on_length `{Sized D} (ds : D) (n : nat) (batch_size : Z) :
  py_len ds = Ok n →
  batch_size ≠ 0 →
  ∃ bs : list (list nat),
    BucketingSampler_init ds batch_size = Ok (mkSampler ds bs)
    ∧ BucketingSampler_init (seq 0 n) batch_size = Ok (mkSampler (seq 0 n) bs).
Proof.
  intros Hlen Hbs. unfold BucketingSampler_init.
  rewrite Hlen. unfold py_len at 1, list_sized. rewrite length_seq.
  cbn [bind]. unfold range. destruct (Z.eqb_spec batch_size 0); [done|].
  cbn [bind]. eauto.
Qed.

Lemma run_calls_bins {D1 D2} `{RandomState G} (cs : list call) :
  ∀ (s1 : BucketingSampler D1) (s2 : BucketingSampler D2) (g : G),
    bins s1 = bins s2 →
    bins (run_calls cs (s1, g)).1 = bins (run_calls cs (s2, g)).1
    ∧ (run_calls cs (s1, g)).2 = (run_calls cs (s2, g)).2.
Proof.
  induction cs as [|c cs IH]; intros s1 s2 g Hbins; [done|].
  unfold run_calls. cbn [foldl].
  fold (run_calls cs (run_call c (s1, g))).
  fold (run_calls cs (run_call c (s2, g))).
  assert (Hstep : bins (run_call c (s1, g)).1 = bins (run_call c (s2, g)).1
                  ∧ (run_call c (s1, g)).2 = (run_call c (s2, g)).2).
  { destruct c as [|k|]; cbn [run_call fst snd];
      unfold BucketingSampler_iter, generator_next, BucketingSampler_shuffle;
      rewrite Hbins.
    - by destruct (shuffle_each (bins s2) g).
    - destruct (bins s2 !! k) as [ids|]; [|done].
      by destruct (np_random_shuffle ids g).
    - by destruct (np_random_shuffle (bins s2) g). }
  destruct Hstep as [Hb Hg].
  destruct (run_call c (s1, g)) as [s1' g1], (run_call c (s2, g)) as [s2' g2].
  cbn [fst snd] in Hb, Hg. subst g2. by apply IH.
Qed.

(** What a pass does with a list of bins: bin [k] comes out as
    [np.random.shuffle] leaves it at the generator state that the shuffles
    of the bins before it have left. *)
Lemma shuffle_each_lookup `{RandomState G} (bs : list (list nat)) :
  ∀ (g : G) (k : nat) (ids : list nat),
    bs !! k = Some ids →
    (shuffle_each bs g).1 !! k
    = Some (np_random_shuffle ids (generator_after k bs g)).1.
Proof.
  induction bs as [|b bs IH]; intros g k ids Hk; [done|].
  cbn [shuffle_each]. destruct (np_random_shuffle b g) as [b' g1] eqn:Hb.
  specialize (IH g1). destruct (shuffle_each bs g1) as [rest g2].
  destruct k as [|k]; cbn [generator_after fst snd] in *.
  - injection Hk as <-. by rewrite Hb.
  - rewrite Hb. cbn [snd]. by apply IH.
Qed.

Lemma shuffle_each_generator `{RandomState G} (bs : list (list nat)) :
  ∀ g : G,
    (shuffle_each bs g).2 = generator_after (length bs) bs g
    ∧ length (shuffle_each bs g).1 = length bs.
Proof.
  induction bs as [|b bs IH]; intros g; [done|].
  cbn [shuffle_each length generator_after].
  destruct (np_random_shuffle b g) as [b' g1].
  specialize (IH g1). destruct (shuffle_each bs g1) as [rest g2].
  cbn [fst snd length] in *. destruct IH as [-> ->]. done.
Qed.

(** C8, as the code has it: the shuffling draws from numpy's process-wide
    generator; the sampler holds no random source of its own and takes no
    seed.  A pass yields one bucket per bin: bin k as np.random.shuffle
    leaves it at the generator state left by the shuffles of bins 0..k-1,
    and the pass leaves the generator advanced by one shuffle per bin.  So
    two samplers constructed over sources of equal length with equal batch
    size yield the same sequence of buckets when each pass starts from the
    same generator state, and leave the generator in the same state; a pass
    over the second that runs after a pass over the first starts from the
    state the first has left. *)
Theorem passes_draw_from_process_generator
    {D1 D2 : Type} {len1 : Sized D1} {len2 : Sized D2} `{RandomState G}
    (ds1 : D1) (ds2 : D2) (n : nat) (batch_size : Z) :
  py_len ds1 = Ok n →
  py_len ds2 = Ok n →
  batch_size ≠ 0 →
  ∃ (s1 : BucketingSampler D1) (s2 : BucketingSampler D2),
    BucketingSampler_init ds1 batch_size = Ok s1
    ∧ BucketingSampler_init ds2 batch_size = Ok s2
    ∧ bins s1 = bins s2
    ∧ ∀ g : G,
        length (BucketingSampler_iter s1 g).1.1 = BucketingSampler_len s1
        ∧ (∀ (k : nat) (ids : list nat),
             bins s1 !! k = Some ids →
             (BucketingSampler_iter s1 g).1.1 !! k
             = Some (np_random_shuffle ids
                       (generator_after k (bins s1) g)).1)
        ∧ (BucketingSampler_iter s1 g).2
          = generator_after (BucketingSampler_len s1) (bins s1) g
        ∧ (BucketingSampler_iter s2 g).1.1 = (BucketingSampler_iter s1 g).1.1
        ∧ (BucketingSampler_iter s2 g).2 = (BucketingSampler_iter s1 g).2
        ∧ (∀ (k : nat) (ids : list nat),
             bins s2 !! k = Some ids →
             (BucketingSampler_iter s2 (BucketingSampler_iter s1 g).2).1.1
               !! k
             = Some (np_random_shuffle ids
                       (generator_after k (bins s2)
                          (generator_after (BucketingSampler_len s1)
                             (bins s1) g))).1)
        ∧ ∀ calls : list call,
            bins (run_calls calls (s1, g)).1
            = bins (run_calls calls (s2, g)).1
            ∧ (run_calls calls (s1, g)).2 = (run_calls calls (s2, g)).2.
Proof.
  intros Hlen1 Hlen2 Hbs.
  destruct (init_depends_on_length ds1 n batch_size Hlen1 Hbs)
    as (bs1 & Hinit1 & Href1).
  destruct (init_depends_on_length ds2 n batch_size Hlen2 Hbs)
    as (bs2 & Hinit2 & Href2).
  assert (bs1 = bs2) as <- by congruence.
  exists (mkSampler ds1 bs1), (mkSampler ds2 bs1).
  split_and!; try done. intros g.
  unfold BucketingSampler_iter, BucketingSampler_len. cbn [bins].
  pose proof (shuffle_each_lookup bs1 g) as Hlook.
  pose proof (shuffle_each_generator bs1 g) as [Hgen Hlength].
  destruct (shuffle_each bs1 g) as [ys g'] eqn:Hpass.
  cbn [fst snd] in *. subst g'. split_and!; try done.
  - intros k ids Hk.
    pose proof (shuffle_each_lookup bs1
                  (generator_after (length bs1) bs1 g) k ids Hk) as Hnext.
    by destruct (shuffle_each bs1 (generator_after (length bs1) bs1 g)).
  - intros calls. by apply run_calls_bins.
Qed.

Lemma passes_draw_from_process_generator_witness :
  py_len ex_small = Ok 5%nat
  ∧ py_len (seq 0 5) = Ok 5%nat
  ∧ 3 ≠ 0
  ∧ ∃ (s1 s2 : BucketingSampler (list nat)),
      BucketingSampler_init ex_small 3 = Ok s1
      ∧ BucketingSampler_init (seq 0 5) 3 = Ok s2
      ∧ bins s1 = bins s2
      ∧ ∀ g : np_generator,
          length (BucketingSampler_iter s1 g).1.1 = BucketingSampler_len s1
          ∧ (∀ (k : nat) (ids : list nat),
               bins s1 !! k = Some ids →
               (BucketingSampler_iter s1 g).1.1 !! k
               = Some (np_random_shuffle ids
                         (generator_after k (bins s1) g)).1)
          ∧ (BucketingSampler_iter s1 g).2
            = generator_after (BucketingSampler_len s1) (bins s1) g
          ∧ (BucketingSampler_iter s2 g).1.1
            = (BucketingSampler_iter s1 g).1.1
          ∧ (BucketingSampler_iter s2 g).2 = (BucketingSampler_iter s1 g).2
          ∧ (∀ (k : nat) (ids : list nat),
               bins s2 !! k = Some ids →
               (BucketingSampler_iter s2 (BucketingSampler_iter s1 g).2).1.1
                 !! k
               = Some (np_random_shuffle ids
                         (generator_after k (bins s2)
                            (generator_after (BucketingSampler_len s1)
                               (bins s1) g))).1)
          ∧ ∀ calls : list call,
              bins (run_calls calls (s1, g)).1
              = bins (run_calls calls (s2, g)).1
              ∧ (run_calls calls (s1, g)).2 = (run_calls calls (s2, g)).2.
Proof.
  split; [reflexivity|]. split; [reflexivity|]. split; [lia|].
  apply (passes_draw_from_process_generator (G := np_generator)
           ex_small (seq 0 5) 5 3);
    [reflexivity|reflexivity|lia].
Defined.

(** numpy's own shuffle only swaps items, so it permutes its argument. *)
Lemma mt19937_shuffle_from_perm {X} (budget i : nat) :
  ∀ (xs ys : list X) (st st' : MT19937.state),
    MT19937.shuffle_from budget i xs st = Some (ys, st') → ys ≡ₚ xs.
Proof.
  induction i as [|i IH]; intros xs ys st st' Hrun; cbn [MT19937.shuffle_from] in Hrun.
  - by injection Hrun as <- _.
  - destruct (MT19937.random_interval budget (Z.of_nat (S i)) st)
      as [[j st1]|]; [|done].
    apply IH in Hrun. rewrite Hrun. unfold MT19937.swap.
    destruct (xs !! S i) as [a|] eqn:Ha; [|done].
    destruct (xs !! Z.to_nat j) as [b|] eqn:Hb; [|done].
    by apply Permutation_insert_swap.
Qed.

Lemma numpy_random_permutes : shuffle_permutes np_generator.
Proof.
  intros X xs [st|]; unfold np_random_shuffle, numpy_random; [|done].
  destruct (MT19937.shuffle draw_budget xs st) as [[ys st']|] eqn:Hrun;
    [|done].
  cbn [fst]. by eapply mt19937_shuffle_from_perm.
Qed.

(** The first draws of numpy's generator after [np.random.seed(1)], and what
    they make of the first bin. *)
Example mt19937_seed_1_draws :
  (MT19937.next_uint32 (MT19937.seed 1)).1 = 1791095845
  ∧ (MT19937.next_uint32 (MT19937.next_uint32 (MT19937.seed 1)).2).1
    = 4282876139
  ∧ (np_random_shuffle [0; 1; 2]%nat (Some (MT19937.seed 1))).1
    = [0; 2; 1]%nat.
Proof. split_and!; vm_compute; reflexivity. Qed.

(** C8 as stated fails on numpy's generator: after np.random.seed(1), two
    equally constructed samplers over five samples with batch size 3,
    iterated one after the other, yield different sequences of buckets,
    because the second pass starts from the state the first one left in the
    shared generator. *)
Lemma second_sampler_sees_advanced_generator :
  ∃ (g0 : np_generator) (s1 s2 : BucketingSampler (list nat)),
    np_random_seed 1 = Ok g0
    ∧ BucketingSampler_init ex_small 3 = Ok s1
    ∧ BucketingSampler_init ex_small 3 = Ok s2
    ∧ (BucketingSampler_iter s1 g0).1.1 = [[0; 2; 1]; [4; 3]]%nat
    ∧ (BucketingSampler_iter s2 (BucketingSampler_iter s1 g0).2).1.1
      = [[2; 1; 0]; [3; 4]]%nat.
Proof.
  exists (Some (MT19937.seed 1)),
    (mkSampler ex_small [[0; 1; 2]; [3; 4]]%nat),
    (mkSampler ex_small [[0; 1; 2]; [3; 4]]%nat).
  split_and!; vm_compute; reflexivity.
Qed.

(* ================================================================== *)
(** * Properties of AudioDataset *)

Lemma foldl_labels_absent (c : ascii) (rest : list ascii) :
  c ∉ rest →
  ∀ (k : nat) (m : gmap ascii nat),
    foldl (λ m (p : nat * ascii), <[p.2 := p.1]> m) m (enumerate_from k rest)
      !! c = m !! c.
Proof.
  induction rest as [|x rest IH]; intros Hc k m; [done|].
  apply not_elem_of_cons in Hc as [Hx Hc].
  cbn [enumerate_from foldl]. rewrite IH by done.
  cbn [fst snd]. by rewrite lookup_insert_ne.
Qed.

(** The first character of the alphabet maps to index 0, unless it occurs
    again later in the alphabet. *)
Lemma make_labels_map_first (c : ascii) (rest : list ascii) :
  c ∉ rest → make_labels_map (c :: rest) !! c = Some 0%nat.
Proof.
  intros Hc. unfold make_labels_map, enumerate.
  cbn [enumerate_from foldl]. rewrite foldl_labels_absent by done.
  cbn [fst snd]. by rewrite lookup_insert_eq.
Qed.

Lemma parse_text_cons (m : gmap ascii nat) (x : ascii) (text : list ascii) :
  parse_text m (x :: text)
  = if decide (x ≠ newline ∧ truthy (m !! x) = true)
    then m !! x :: parse_text m text
    else parse_text m text.
Proof.
  unfold parse_text. rewrite filter_cons.
  destruct (decide (x ≠ newline)) as [Hx|Hx].
  - rewrite fmap_cons, filter_cons.
    destruct (decide (truthy (m !! x) = true)) as [Ht|Ht].
    + rewrite decide_True by done. done.
    + rewrite decide_False by tauto. done.
  - rewrite decide_False by tauto. done.
Qed.

(** What [parse_text] keeps: an entry of the result is never [None] and
    never index 0. *)
Lemma parse_text_truthy (m : gmap ascii nat) (text : list ascii) :
  Forall (λ v, ∃ k : nat, v = Some (S k)) (parse_text m text).
Proof.
  unfold parse_text. apply Forall_forall. intros v Hv.
  apply list_elem_of_filter in Hv as [Hv _].
  destruct v as [[|k]|]; try done. by exists k.
Qed.

(** A character whose lookup is falsy leaves no trace in the result. *)
Lemma parse_text_remove (m : gmap ascii nat) (c : ascii) (text : list ascii) :
  truthy (m !! c) = false →
  parse_text m text = parse_text m (filter (λ x, x ≠ c) text).
Proof.
  intros Hc. induction text as [|x text IH]; [done|].
  rewrite filter_cons. destruct (decide (x ≠ c)) as [Hx|Hx].
  - rewrite !parse_text_cons, IH. done.
  - apply dec_stable in Hx as ->. rewrite parse_text_cons.
    rewrite decide_False; [done|]. rewrite Hc. intros [_ ?]. done.
Qed.

(** C9: parse_transcript drops the characters that are not in the label
    alphabet and, with them, every occurrence of the character mapped to
    label index 0: once [read()] has returned the text, the call returns,
    index 0 never occurs in the returned sequence, and the sequence is the
    one the transcript without that character gives.  A character mapped to
    another index is kept. *)
Theorem parse_transcript_drops_index_zero {M F : Type}
    (fs : filesystem) (manifest : M) (labels : list ascii)
    (featurizer : option F) (path : string) (text : list ascii) (c : ascii) :
  fs path = Ok text →
  make_labels_map labels !! c = Some 0%nat →
  ∃ out : list (option nat),
    parse_transcript fs (AudioDataset_init manifest labels featurizer) path
    = Ok out
    ∧ out = parse_text (make_labels_map labels) text
    ∧ (Some 0%nat ∉ out)
    ∧ (None ∉ out)
    ∧ out = parse_text (make_labels_map labels) (filter (λ x, x ≠ c) text)
    ∧ parse_text (make_labels_map labels) [c] = []
    ∧ (∀ x : ascii,
         make_labels_map labels !! x = None →
         out = parse_text (make_labels_map labels) (filter (λ y, y ≠ x) text))
    ∧ ∀ (x : ascii) (k : nat),
        x ≠ newline →
        make_labels_map labels !! x = Some (S k) →
        parse_text (make_labels_map labels) [x] = [Some (S k)].
Proof.
  intros Hfile Hc.
  exists (parse_text (make_labels_map labels) text).
  pose proof (parse_text_truthy (make_labels_map labels) text) as Hall.
  rewrite Forall_forall in Hall. split_and!.
  - unfold parse_transcript. rewrite Hfile. cbn [bind].
    unfold getattr, AudioDataset_init.
    rewrite lookup_insert_ne by done. by rewrite lookup_insert_eq.
  - done.
  - intros Hin. by destruct (Hall _ Hin) as [k Hk].
  - intros Hin. by destruct (Hall _ Hin) as [k Hk].
  - apply parse_text_remove. by rewrite Hc.
  - rewrite parse_text_cons, Hc. rewrite decide_False; [done|].
    intros [_ ?]. done.
  - intros x Hx. apply parse_text_remove. by rewrite Hx.
  - intros x k Hx Hk. rewrite parse_text_cons, Hk.
    rewrite decide_True; done.
Qed.

Lemma parse_transcript_drops_index_zero_witness :
  ex_fs "utt1.txt" = Ok ex_text
  ∧ make_labels_map ex_labels !! "_"%char = Some 0%nat
  ∧ ∃ out : list (option nat),
      parse_transcript ex_fs (AudioDataset_init () ex_labels (@None ()))
        "utt1.txt" = Ok out
      ∧ out = parse_text (make_labels_map ex_labels) ex_text
      ∧ (Some 0%nat ∉ out)
      ∧ (None ∉ out)
      ∧ out = parse_text (make_labels_map ex_labels)
                (filter (λ x, x ≠ "_"%char) ex_text)
      ∧ parse_text (make_labels_map ex_labels) ["_"%char] = []
      ∧ (∀ x : ascii,
           make_labels_map ex_labels !! x = None →
           out = parse_text (make_labels_map ex_labels)
                   (filter (λ y, y ≠ x) ex_text))
      ∧ ∀ (x : ascii) (k : nat),
          x ≠ newline →
          make_labels_map ex_labels !! x = Some (S k) →
          parse_text (make_labels_map ex_labels) [x] = [Some (S k)].
Proof.
  split; [reflexivity|]. split; [reflexivity|].
  apply (parse_transcript_drops_index_zero ex_fs () ex_labels (@None ())
           "utt1.txt" ex_text "_"%char); reflexivity.
Defined.

(** The example transcript "a_b\nza" over the alphabet "_ab": the blank,
    the newline and the unknown "z" are dropped. *)
Example parse_text_example :
  parse_text (make_labels_map ex_labels) ex_text
  = [Some 1; Some 2; Some 1]%nat.
Proof. reflexivity. Qed.

(** [__len__] works on an object that has a [size] attribute. *)
Example AudioDataset_len_with_size :
  AudioDataset_len
    (<["size" := VInt 5]> (AudioDataset_init () ex_labels (@None ())))
  = Ok 5%nat.
Proof. reflexivity. Qed.

(** C10: on every instance that [__init__] has built, [__len__] raises
    AttributeError, because [size] is never assigned, and [__getitem__]
    raises it for [ids]; so [BucketingSampler.__init__] over an AudioDataset,
    which calls [len(data_source)], raises too, for every batch size. *)
Theorem AudioDataset_len_raises {M F : Type} (manifest : M)
    (labels : list ascii) (featurizer : option F) (index : nat)
    (batch_size : Z) :
  AudioDataset_len (AudioDataset_init manifest labels featurizer)
  = Raise (AttributeError "size")
  ∧ AudioDataset_getitem_sample
      (AudioDataset_init manifest labels featurizer) index
    = Raise (AttributeError "ids")
  ∧ BucketingSampler_init (AudioDataset_init manifest labels featurizer)
      batch_size
    = Raise (AttributeError "size").
Proof.
  assert (Hsize : getattr (AudioDataset_init manifest labels featurizer) "size"
                  = Raise (AttributeError "size")).
  { unfold getattr, AudioDataset_init.
    rewrite !lookup_insert_ne by done. by rewrite lookup_empty. }
  assert (Hids : getattr (AudioDataset_init manifest labels featurizer) "ids"
                 = Raise (AttributeError "ids")).
  { unfold getattr, AudioDataset_init.
    rewrite !lookup_insert_ne by done. by rewrite lookup_empty. }
  split_and!.
  - unfold AudioDataset_len. by rewrite Hsize.
  - unfold AudioDataset_getitem_sample. by rewrite Hids.
  - unfold BucketingSampler_init, py_len, AudioDataset_sized, AudioDataset_len.
    by rewrite Hsize.
Qed.

(* ================================================================== *)
(** * Further properties of audio_seq_collate_fn *)

Lemma sort_key_never_positive {elt} (k : Z) (xs : list (Sample elt)) :
  0 < k → filter (λ x, sort_key x = k) xs = [].
Proof.
  intros Hk. induction xs as [|x xs IH]; [done|].
  rewrite filter_cons_False; [done|]. unfold sort_key. lia.
Qed.

(** X1: a second call on the list as the first call left it finds the list
    in order: it leaves the list as it is and returns or raises exactly what
    the first call did. *)
Theorem collate_again_same_result `{Dtype elt} (batch : list (Sample elt)) :
  audio_seq_collate_fn (audio_seq_collate_fn batch).1
  = audio_seq_collate_fn batch.
Proof.
  unfold audio_seq_collate_fn. cbn [fst].
  by rewrite (list_sort_ascending_id sort_key _
                (list_sort_ascending sort_key batch)).
Qed.

(** X2: the outcome depends on the order of the given list only through the
    relative order of samples with equal frame count: two lists that hold,
    for every frame count, the same samples of that frame count in the same
    order give the same list afterwards and the same result.  In particular
    samples of different frame counts may be given in any order. *)
Theorem collate_ignores_order_across_lengths `{Dtype elt}
    (batch1 batch2 : list (Sample elt)) :
  (∀ n : nat,
     filter (λ x, frame_count x = n) batch1
     = filter (λ x, frame_count x = n) batch2) →
  audio_seq_collate_fn batch1 = audio_seq_collate_fn batch2.
Proof.
  intros Hsame. unfold audio_seq_collate_fn.
  assert (list_sort sort_key batch1 = list_sort sort_key batch2) as ->; [|done].
  apply (ascending_filter_eq sort_key); [apply list_sort_ascending..|].
  intros k. rewrite !list_sort_stable.
  destruct (decide (k ≤ 0)) as [Hk|Hk].
  - specialize (Hsame (Z.to_nat (- k))).
    rewrite !sort_key_frame_count in Hsame.
    by replace (- Z.of_nat (Z.to_nat (- k))) with k in Hsame by lia.
  - by rewrite !sort_key_never_positive by lia.
Qed.

Lemma collate_ignores_order_across_lengths_witness :
  (∀ n : nat,
     filter (λ x, frame_count x = n) ex_batch
     = filter (λ x, frame_count x = n) ex_batch_swapped)
  ∧ audio_seq_collate_fn ex_batch = audio_seq_collate_fn ex_batch_swapped.
Proof.
  assert (Hsame : ∀ n : nat,
            filter (λ x, frame_count x = n) ex_batch
            = filter (λ x, frame_count x = n) ex_batch_swapped).
  { intros n. unfold ex_batch, ex_batch_swapped.
    rewrite !filter_cons, !filter_nil.
    change (frame_count ex_short) with 1%nat.
    change (frame_count ex_long) with 3%nat.
    repeat case_decide; try done; lia. }
  split; [exact Hsame|].
  exact (collate_ignores_order_across_lengths ex_batch ex_batch_swapped Hsame).
Defined.

(** X3: on a valid batch the three length components agree with the padded
    tensor: input_lengths and target_sizes have one entry per row block, the
    first entry of input_lengths is the padded width, every entry lies
    between 0 and that width, and no target size is negative. *)
Theorem input_lengths_within_padded_width `{Dtype elt}
    (batch : list (Sample elt)) :
  valid_batch batch = true →
  ∃ (out : Batch elt) (n h w : nat),
    (audio_seq_collate_fn batch).2 = Ok out
    ∧ shape (inputs out) = (n, 1%nat, h, w)
    ∧ n = length batch
    ∧ length (input_lengths out) = n
    ∧ length (target_sizes out) = n
    ∧ head (input_lengths out) = Some (Z.of_nat w)
    ∧ Forall (λ l, 0 ≤ l ≤ Z.of_nat w) (input_lengths out)
    ∧ Forall (λ t, 0 ≤ t) (target_sizes out).
Proof.
  intros Hvalid.
  destruct (collate_valid batch Hvalid)
    as (x0 & out & Hhd & Hcall & Hshape & Hlong & _ & Hl & Hs & _ & _).
  exists out, (length batch), (feature_dim x0), (frame_count x0).
  rewrite Hcall, Hl, Hs. split_and!; try done.
  - by rewrite length_fmap, list_sort_length.
  - by rewrite length_fmap, list_sort_length.
  - destruct (list_sort sort_key batch) as [|y tl]; [done|].
    simpl in Hhd. by injection Hhd as ->.
  - apply Forall_fmap, Forall_forall. intros x Hx. simpl.
    rewrite (list_sort_perm sort_key batch) in Hx.
    rewrite Forall_forall in Hlong. specialize (Hlong x Hx). lia.
  - apply Forall_fmap, Forall_forall. intros x _. simpl. lia.
Qed.

Lemma input_lengths_within_padded_width_witness :
  valid_batch ex_batch = true
  ∧ ∃ (out : Batch Z) (n h w : nat),
      (audio_seq_collate_fn ex_batch).2 = Ok out
      ∧ shape (inputs out) = (n, 1%nat, h, w)
      ∧ n = length ex_batch
      ∧ length (input_lengths out) = n
      ∧ length (target_sizes out) = n
      ∧ head (input_lengths out) = Some (Z.of_nat w)
      ∧ Forall (λ l, 0 ≤ l ≤ Z.of_nat w) (input_lengths out)
      ∧ Forall (λ t, 0 ≤ t) (target_sizes out).
Proof.
  split; [reflexivity|].
  apply (input_lengths_within_padded_width ex_batch). reflexivity.
Defined.

(** X4: on a valid batch no label is lost, repeated or invented: the
    flattened targets are a rearrangement of all labels of the given samples,
    and there are as many of them as the samples have labels in total. *)
Theorem targets_keep_all_labels `{Dtype elt} (batch : list (Sample elt)) :
  valid_batch batch = true →
  ∃ out : Batch elt,
    (audio_seq_collate_fn batch).2 = Ok out
    ∧ targets out ≡ₚ concat (snd <$> batch)
    ∧ length (targets out) = sum_list (label_count <$> batch).
Proof.
  intros Hvalid.
  destruct (collate_valid batch Hvalid)
    as (x0 & out & _ & Hcall & _ & _ & _ & _ & _ & Ht & _).
  exists out. rewrite Hcall, Ht.
  assert (Hperm : concat (snd <$> list_sort sort_key batch)
                  ≡ₚ concat (snd <$> batch)).
  { apply concat_perm. by rewrite (list_sort_perm sort_key batch). }
  split_and!; [done|done|].
  rewrite Hperm, concat_length_sum, <- list_fmap_compose. done.
Qed.

Lemma targets_keep_all_labels_witness :
  valid_batch ex_batch = true
  ∧ ∃ out : Batch Z,
      (audio_seq_collate_fn ex_batch).2 = Ok out
      ∧ targets out ≡ₚ concat (snd <$> ex_batch)
      ∧ length (targets out) = sum_list (label_count <$> ex_batch).
Proof.
  split; [reflexivity|]. apply (targets_keep_all_labels ex_batch). reflexivity.
Defined.

(* ================================================================== *)
(** * Further properties of BucketingSampler *)

Lemma same_buckets_length (bs1 bs2 : list (list nat)) :
  same_buckets bs1 bs2 → length bs1 = length bs2.
Proof.
  intros Hsame. apply same_buckets_sizes, Permutation_length in Hsame.
  by rewrite !length_fmap in Hsame.
Qed.

Lemma same_buckets_Forall_size (P : nat → Prop) (bs1 bs2 : list (list nat)) :
  same_buckets bs1 bs2 →
  Forall (λ b, P (length b)) bs2 → Forall (λ b, P (length b)) bs1.
Proof.
  intros Hsame Hall. apply same_buckets_sizes in Hsame.
  apply (Forall_fmap length P). rewrite Hsame. by apply Forall_fmap.
Qed.

(** [len(range(0, n, step))] is the ceiling of [n / step]. *)
Lemma range_len_ceiling (n : nat) (step : Z) :
  1 ≤ step →
  Z.of_nat (range_len 0 (Z.of_nat n) step) = (Z.of_nat n + step - 1) / step.
Proof.
  intros Hstep. unfold range_len.
  destruct (Z.ltb_spec 0 step); [|lia].
  destruct (Z.ltb_spec 0 (Z.of_nat n)).
  - rewrite Z.sub_0_r.
    assert (0 ≤ (Z.of_nat n - 1) / step) by (apply Z.div_pos; lia).
    rewrite Z2Nat.id by lia.
    replace (Z.of_nat n + step - 1) with (Z.of_nat n - 1 + 1 * step) by lia.
    by rewrite Z.div_add by lia.
  - replace (Z.of_nat n) with 0 by lia. simpl.
    symmetry. apply Z.div_small. lia.
Qed.

Lemma iter_yields_are_bins {D} `{RandomState G}
    (st : BucketingSampler D * G) :
  (BucketingSampler_iter st.1 st.2).1.1 = bins (run_call CallIter st).1.
Proof.
  cbn [run_call]. unfold BucketingSampler_iter.
  by destruct (shuffle_each (bins st.1) st.2).
Qed.

(** X5: for a batch size of at least 1, [len(sampler)] is the number of
    buckets, the ceiling of dataset_size / batch_size, and it stays so,
    with the same data source, whatever passes and shuffles follow. *)
Theorem sampler_len_is_ceiling `{Sized D} `{RandomState G}
    (ds : D) (n : nat) (batch_size : Z) :
  shuffle_permutes G →
  py_len ds = Ok n →
  1 ≤ batch_size →
  ∃ s : BucketingSampler D,
    BucketingSampler_init ds batch_size = Ok s
    ∧ data_source s = ds
    ∧ Z.of_nat (BucketingSampler_len s)
      = (Z.of_nat n + batch_size - 1) / batch_size
    ∧ ∀ (calls : list call) (g : G),
        BucketingSampler_len (run_calls calls (s, g)).1
        = BucketingSampler_len s
        ∧ data_source (run_calls calls (s, g)).1 = ds.
Proof.
  intros Hperm Hlen Hbs.
  eexists. split; [by apply init_bins|]. cbn [data_source].
  unfold BucketingSampler_len at 1 3. cbn [bins]. rewrite chunks_length.
  split_and!; [done|by apply range_len_ceiling|].
  intros calls g.
  match goal with |- context [run_calls calls (?s0, g)] =>
    destruct (run_calls_same_buckets Hperm calls (s0, g)) as [Hsame Hds]
  end.
  cbn [fst bins data_source] in Hsame, Hds. split; [|done].
  unfold BucketingSampler_len.
  by rewrite (same_buckets_length _ _ Hsame), chunks_length.
Qed.

Lemma sampler_len_is_ceiling_witness :
  shuffle_permutes nat
  ∧ py_len ex_source = Ok 7%nat
  ∧ 1 ≤ 3
  ∧ ∃ s : BucketingSampler (list nat),
      BucketingSampler_init ex_source 3 = Ok s
      ∧ data_source s = ex_source
      ∧ Z.of_nat (BucketingSampler_len s) = (Z.of_nat 7 + 3 - 1) / 3
      ∧ ∀ (calls : list call) (g : nat),
          BucketingSampler_len (run_calls calls (s, g)).1
          = BucketingSampler_len s
          ∧ data_source (run_calls calls (s, g)).1 = ex_source.
Proof.
  split; [exact counter_random_permutes|].
  split; [reflexivity|]. split; [lia|].
  apply (sampler_len_is_ceiling ex_source 7 3);
    [exact counter_random_permutes|reflexivity|lia].
Defined.

(** X6: a batch size that is not positive.  With batch size 0 the
    constructor raises ValueError (from [range]); with a negative batch size
    it raises nothing and builds a sampler without buckets, of length 0,
    whose passes yield nothing and leave the random generator alone. *)
Theorem nonpositive_batch_size `{Sized D} `{RandomState G}
    (ds : D) (n : nat) (batch_size : Z) (g : G) :
  py_len ds = Ok n →
  batch_size < 0 →
  BucketingSampler_init ds 0 = Raise ValueError
  ∧ BucketingSampler_init ds batch_size = Ok (mkSampler ds [])
  ∧ BucketingSampler_len (mkSampler ds []) = 0%nat
  ∧ BucketingSampler_iter (mkSampler ds []) g = ([], mkSampler ds [], g).
Proof.
  intros Hlen Hneg. unfold BucketingSampler_init. rewrite Hlen. cbn [bind].
  rewrite length_seq. unfold range. split; [done|].
  destruct (Z.eqb_spec batch_size 0); [lia|].
  unfold range_len. destruct (Z.ltb_spec 0 batch_size); [lia|].
  destruct (Z.ltb_spec (Z.of_nat n) 0); [lia|]. done.
Qed.

Lemma nonpositive_batch_size_witness :
  py_len ex_source = Ok 7%nat
  ∧ -2 < 0
  ∧ BucketingSampler_init ex_source 0 = Raise ValueError
  ∧ BucketingSampler_init ex_source (-2) = Ok (mkSampler ex_source [])
  ∧ BucketingSampler_len (mkSampler ex_source []) = 0%nat
  ∧ BucketingSampler_iter (mkSampler ex_source []) 1%nat
    = ([], mkSampler ex_source [], 1%nat).
Proof.
  split; [reflexivity|]. split; [lia|].
  apply (nonpositive_batch_size ex_source 7 (-2) 1%nat); [reflexivity|lia].
Defined.

(** X7: every epoch covers the dataset once.  For a batch size of at least
    1 and after any history of passes and shuffles, the buckets that one
    full pass of __iter__ yields partition [0, dataset_size): every index is
    yielded in exactly one bucket, once.  The pass yields [len(sampler)]
    buckets, none empty and none larger than batch_size. *)
Theorem every_pass_yields_each_index_once `{Sized D} `{RandomState G}
    (ds : D) (n : nat) (batch_size : Z) :
  shuffle_permutes G →
  py_len ds = Ok n →
  1 ≤ batch_size →
  ∃ s : BucketingSampler D,
    BucketingSampler_init ds batch_size = Ok s
    ∧ ∀ (calls : list call) (g : G),
        partitions n
          (BucketingSampler_iter (run_calls calls (s, g)).1
             (run_calls calls (s, g)).2).1.1
        ∧ length (BucketingSampler_iter (run_calls calls (s, g)).1
                    (run_calls calls (s, g)).2).1.1
          = BucketingSampler_len s
        ∧ Forall (λ b, 1 ≤ Z.of_nat (length b) ≤ batch_size)
            (BucketingSampler_iter (run_calls calls (s, g)).1
               (run_calls calls (s, g)).2).1.1.
Proof.
  intros Hperm Hlen Hbs.
  eexists. split; [by apply init_bins|]. intros calls g.
  pose proof (range_len_bounds n batch_size Hbs) as [Hup Hlow].
  set (m := range_len 0 (Z.of_nat n) batch_size) in *.
  set (b := Z.to_nat batch_size).
  set (s0 := mkSampler ds (chunks b m (seq 0 n))).
  rewrite iter_yields_are_bins.
  destruct (run_calls_same_buckets Hperm calls (s0, g)) as [Hsame1 _].
  destruct (run_call_same_buckets Hperm CallIter (run_calls calls (s0, g)))
    as [Hsame2 _].
  assert (Hsame : same_buckets
                    (bins (run_call CallIter (run_calls calls (s0, g))).1)
                    (chunks b m (seq 0 n))).
  { unfold same_buckets in *. etransitivity; [exact Hsame2|exact Hsame1]. }
  assert (Hconcat : concat (chunks b m (seq 0 n)) = seq 0 n).
  { apply concat_chunks. rewrite length_seq. nia. }
  split_and!.
  - apply perm_partitions.
    by rewrite (same_buckets_concat _ _ Hsame), Hconcat.
  - rewrite (same_buckets_length _ _ Hsame).
    unfold BucketingSampler_len. done.
  - apply (same_buckets_Forall_size
             (λ k, 1 ≤ Z.of_nat k ≤ batch_size) _ _ Hsame).
    apply Forall_forall. intros c Hc.
    apply list_elem_of_lookup in Hc as [k Hk].
    assert (Hzero : (n = 0 → m = 0)%nat).
    { intros ->. subst m. unfold range_len.
      destruct (0 <? batch_size); reflexivity. }
    assert (Hup' : (n ≤ m * b)%nat) by nia.
    assert (Hlow' : (n ≠ 0 → (m - 1) * b < n)%nat).
    { intros Hn. specialize (Hlow Hn). nia. }
    destruct (chunks_sizes n b m k c ltac:(lia) Hup' Hlow' Hzero Hk)
      as [Hsz _].
    lia.
Qed.

Lemma every_pass_yields_each_index_once_witness :
  shuffle_permutes nat
  ∧ py_len ex_source = Ok 7%nat
  ∧ 1 ≤ 3
  ∧ ∃ s : BucketingSampler (list nat),
      BucketingSampler_init ex_source 3 = Ok s
      ∧ ∀ (calls : list call) (g : nat),
          partitions 7
            (BucketingSampler_iter (run_calls calls (s, g)).1
               (run_calls calls (s, g)).2).1.1
          ∧ length (BucketingSampler_iter (run_calls calls (s, g)).1
                      (run_calls calls (s, g)).2).1.1
            = BucketingSampler_len s
          ∧ Forall (λ b, 1 ≤ Z.of_nat (length b) ≤ 3)
              (BucketingSampler_iter (run_calls calls (s, g)).1
                 (run_calls calls (s, g)).2).1.1.
Proof.
  split; [exact counter_random_permutes|].
  split; [reflexivity|]. split; [lia|].
  apply (every_pass_yields_each_index_once ex_source 7 3);
    [exact counter_random_permutes|reflexivity|lia].
Defined.

(** X8: what each call may reorder.  A pass of __iter__ keeps every bucket
    at its position: the bucket yielded at step k holds exactly the indices
    that bin k held before the pass, and the bins afterwards are the yielded
    lists.  shuffle() keeps every bucket as it is, contents and inner order,
    and only moves whole buckets. *)
Theorem pass_and_shuffle_reorder_separately {D} `{RandomState G}
    (s : BucketingSampler D) (g : G) :
  shuffle_permutes G →
  Forall2 (≡ₚ) (BucketingSampler_iter s g).1.1 (bins s)
  ∧ bins (BucketingSampler_iter s g).1.2 = (BucketingSampler_iter s g).1.1
  ∧ length <$> (BucketingSampler_iter s g).1.1 = length <$> bins s
  ∧ bins (BucketingSampler_shuffle s g).1 ≡ₚ bins s.
Proof.
  intros Hperm. unfold BucketingSampler_iter, BucketingSampler_shuffle.
  pose proof (shuffle_each_Forall2 Hperm (bins s) g) as Hall.
  pose proof (Hperm _ (bins s) g) as Hbs.
  destruct (shuffle_each (bins s) g) as [ys g1].
  destruct (np_random_shuffle (bins s) g) as [bs g2].
  cbn [fst snd bins] in *. split_and!; try done.
  clear Hbs. induction Hall as [|y b ys bs' Hy _ IH]; [done|].
  rewrite !fmap_cons. f_equal; [by rewrite Hy|done].
Qed.

Lemma pass_and_shuffle_reorder_separately_witness :
  shuffle_permutes nat
  ∧ Forall2 (≡ₚ)
      (BucketingSampler_iter (mkSampler ex_small [[0; 1; 2]; [3; 4]]%nat)
         1%nat).1.1
      [[0; 1; 2]; [3; 4]]%nat
  ∧ bins (BucketingSampler_iter (mkSampler ex_small [[0; 1; 2]; [3; 4]]%nat)
            1%nat).1.2
    = (BucketingSampler_iter (mkSampler ex_small [[0; 1; 2]; [3; 4]]%nat)
         1%nat).1.1
  ∧ length <$> (BucketingSampler_iter
                  (mkSampler ex_small [[0; 1; 2]; [3; 4]]%nat) 1%nat).1.1
    = length <$> [[0; 1; 2]; [3; 4]]%nat
  ∧ bins (BucketingSampler_shuffle
            (mkSampler ex_small [[0; 1; 2]; [3; 4]]%nat) 1%nat).1
    ≡ₚ [[0; 1; 2]; [3; 4]]%nat.
Proof.
  split; [exact counter_random_permutes|].
  exact (pass_and_shuffle_reorder_separately
           (mkSampler ex_small [[0; 1; 2]; [3; 4]]%nat) 1%nat
           counter_random_permutes).
Defined.

(** X9: a batch size that covers the whole dataset gives one bucket: for a
    dataset that is not empty and a batch size of at least its length, the
    sampler has the single bucket [0, 1, ..., dataset_size - 1]. *)
Theorem one_bucket_when_batch_covers_dataset `{Sized D}
    (ds : D) (n : nat) (batch_size : Z) :
  py_len ds = Ok n →
  n ≠ 0%nat →
  Z.of_nat n ≤ batch_size →
  BucketingSampler_init ds batch_size = Ok (mkSampler ds [seq 0 n]).
Proof.
  intros Hlen Hn Hbs. rewrite (init_bins ds n batch_size Hlen) by lia.
  do 2 f_equal.
  assert (range_len 0 (Z.of_nat n) batch_size = 1%nat) as ->.
  { unfold range_len. destruct (Z.ltb_spec 0 batch_size); [|lia].
    destruct (Z.ltb_spec 0 (Z.of_nat n)); [|lia].
    rewrite Z.sub_0_r, Z.div_small by lia. done. }
  unfold chunks. cbn [seq fmap list_fmap]. rewrite Nat.mul_0_l, drop_0.
  rewrite take_ge; [done|]. rewrite length_seq. lia.
Qed.

Lemma one_bucket_when_batch_covers_dataset_witness :
  py_len ex_small = Ok 5%nat
  ∧ 5%nat ≠ 0%nat
  ∧ Z.of_nat 5 ≤ 8
  ∧ BucketingSampler_init ex_small 8 = Ok (mkSampler ex_small [seq 0 5]).
Proof.
  split; [reflexivity|]. split; [done|]. split; [simpl; lia|].
  apply (one_bucket_when_batch_covers_dataset ex_small 5 8);
    [reflexivity|done|simpl; lia].
Defined.

(** X10: over an empty data source the constructor builds a sampler without
    buckets for every batch size but 0; its length is 0 and a pass yields
    nothing and leaves the random generator alone. *)
Theorem empty_dataset_has_no_buckets `{Sized D} `{RandomState G}
    (ds : D) (batch_size : Z) (g : G) :
  py_len ds = Ok 0%nat →
  batch_size ≠ 0 →
  ∃ s : BucketingSampler D,
    BucketingSampler_init ds batch_size = Ok s
    ∧ bins s = []
    ∧ BucketingSampler_len s = 0%nat
    ∧ (BucketingSampler_iter s g).1.1 = []
    ∧ (BucketingSampler_iter s g).2 = g.
Proof.
  intros Hlen Hbs. exists (mkSampler ds []).
  split; [|done].
  unfold BucketingSampler_init. rewrite Hlen. cbn [bind seq length].
  unfold range. destruct (Z.eqb_spec batch_size 0); [done|].
  unfold range_len. by destruct (0 <? batch_size).
Qed.

Lemma empty_dataset_has_no_buckets_witness :
  py_len (@nil nat) = Ok 0%nat
  ∧ 4 ≠ 0
  ∧ ∃ s : BucketingSampler (list nat),
      BucketingSampler_init (@nil nat) 4 = Ok s
      ∧ bins s = []
      ∧ BucketingSampler_len s = 0%nat
      ∧ (BucketingSampler_iter s 1%nat).1.1 = []
      ∧ (BucketingSampler_iter s 1%nat).2 = 1%nat.
Proof.
  split; [reflexivity|]. split; [done|].
  apply (empty_dataset_has_no_buckets (@nil nat) 4 1%nat); [reflexivity|done].
Defined.

(* ================================================================== *)
(** * Further properties of AudioDataset *)

(** Where a lookup in the dictionary built from position [k] on comes from:
    the dictionary it started as, if the character is not among the labels,
    and otherwise the last position of the character. *)
Lemma foldl_labels_Some (labels : list ascii) :
  ∀ (k : nat) (m : gmap ascii nat) (c : ascii) (i : nat),
    foldl put_label m (enumerate_from k labels) !! c = Some i →
    (m !! c = Some i ∧ c ∉ labels)
    ∨ ∃ j : nat,
        i = (k + j)%nat ∧ labels !! j = Some c
        ∧ ∀ j' : nat, (j < j')%nat → labels !! j' ≠ Some c.
Proof.
  induction labels as [|x rest IH]; intros k m c i Hlook.
  - left. split; [done|]. apply not_elem_of_nil.
  - cbn [enumerate_from foldl] in Hlook.
    apply IH in Hlook as [[Hm Hrest]|(j & -> & Hj & Hlater)].
    + unfold put_label in Hm. cbn [fst snd] in Hm.
      destruct (decide (x = c)) as [->|Hne].
      * rewrite lookup_insert_eq in Hm. injection Hm as <-.
        right. exists 0%nat. split_and!; [lia|done|].
        intros [|j'] Hj'; [lia|]. simpl. intros Hin.
        apply Hrest. by eapply list_elem_of_lookup_2.
      * rewrite lookup_insert_ne in Hm by done. left. split; [done|].
        apply not_elem_of_cons. split; [congruence|done].
    + right. exists (S j). split_and!; [lia|done|].
      intros [|j'] Hj'; [lia|]. simpl. apply Hlater. lia.
Qed.

Lemma foldl_labels_None (labels : list ascii) :
  ∀ (k : nat) (m : gmap ascii nat) (c : ascii),
    foldl put_label m (enumerate_from k labels) !! c = None
    ↔ m !! c = None ∧ c ∉ labels.
Proof.
  induction labels as [|x rest IH]; intros k m c.
  - cbn [enumerate_from foldl]. split; [|tauto].
    intros Hm. split; [done|]. apply not_elem_of_nil.
  - cbn [enumerate_from foldl]. rewrite IH. unfold put_label. cbn [fst snd].
    rewrite not_elem_of_cons. destruct (decide (x = c)) as [->|Hne].
    + rewrite lookup_insert_eq. split; [intros [? _]; done|tauto].
    + rewrite lookup_insert_ne by done. split; [|tauto].
      intros [? ?]. split_and!; congruence.
Qed.

Lemma make_labels_map_Some (labels : list ascii) (c : ascii) (i : nat) :
  make_labels_map labels !! c = Some i →
  labels !! i = Some c ∧ ∀ j : nat, (i < j)%nat → labels !! j ≠ Some c.
Proof.
  intros Hlook. apply (foldl_labels_Some labels 0 ∅ c i) in Hlook
    as [[Hm _]|(j & -> & Hj & Hlater)]; [by rewrite lookup_empty in Hm|].
  done.
Qed.

Lemma make_labels_map_None (labels : list ascii) (c : ascii) :
  make_labels_map labels !! c = None ↔ c ∉ labels.
Proof.
  unfold make_labels_map, enumerate.
  rewrite (foldl_labels_None labels 0 ∅ c), lookup_empty. tauto.
Qed.

(** X11: the dictionary [labels_map] that [__init__] builds knows exactly
    the characters of the alphabet, and for a character that occurs more
    than once the last occurrence wins: the character maps to the position
    of its last occurrence. *)
Theorem labels_map_last_occurrence
    (pre : list ascii) (c : ascii) (post : list ascii) (x : ascii) :
  (c ∉ post → make_labels_map (pre ++ c :: post) !! c = Some (length pre))
  ∧ (make_labels_map (pre ++ c :: post) !! x = None ↔ x ∉ pre ++ c :: post).
Proof.
  split; [|apply make_labels_map_None].
  intros Hpost.
  destruct (make_labels_map (pre ++ c :: post) !! c) as [i|] eqn:Hlook.
  - apply make_labels_map_Some in Hlook as [Hi Hlater]. f_equal.
    destruct (Nat.lt_total i (length pre)) as [Hlt|[->|Hgt]]; [|done|].
    + exfalso. apply (Hlater (length pre) Hlt).
      by rewrite list_lookup_middle.
    + exfalso. apply Hpost.
      rewrite lookup_app_r in Hi by lia.
      destruct (i - length pre)%nat as [|d] eqn:Hd; [lia|].
      simpl in Hi. by eapply list_elem_of_lookup_2.
  - apply make_labels_map_None in Hlook. exfalso. apply Hlook.
    apply elem_of_app. right. apply list_elem_of_here.
Qed.

(** X12: for an alphabet without repeated characters [labels_map] is the
    inverse of indexing: a character maps to an index exactly when the
    alphabet has that character at that index. *)
Theorem labels_map_inverts_alphabet (labels : list ascii) (c : ascii)
    (i : nat) :
  NoDup labels →
  make_labels_map labels !! c = Some i ↔ labels !! i = Some c.
Proof.
  intros Hnd. split; [by intros [? _]%make_labels_map_Some|].
  intros Hi.
  destruct (make_labels_map labels !! c) as [j|] eqn:Hlook.
  - apply make_labels_map_Some in Hlook as [Hj _]. f_equal.
    by eapply NoDup_lookup.
  - apply make_labels_map_None in Hlook. exfalso. apply Hlook.
    by eapply list_elem_of_lookup_2.
Qed.

Lemma ex_labels_NoDup : NoDup ex_labels.
Proof. apply (bool_decide_unpack _). by vm_compute. Qed.

Lemma labels_map_inverts_alphabet_witness :
  NoDup ex_labels
  ∧ (make_labels_map ex_labels !! "b"%char = Some 2%nat
     ↔ ex_labels !! 2%nat = Some "b"%char).
Proof.
  split; [exact ex_labels_NoDup|].
  exact (labels_map_inverts_alphabet ex_labels "b"%char 2 ex_labels_NoDup).
Defined.

Lemma parse_text_kept (m : gmap ascii nat) (text : list ascii) :
  parse_text m text = (λ c, m !! c) <$> filter (kept m) text.
Proof.
  induction text as [|x text IH]; [done|].
  rewrite parse_text_cons, filter_cons, IH. unfold kept.
  destruct (decide (x ≠ newline ∧ truthy (m !! x) = true)); done.
Qed.

(** X13: when [read()] returns the text of the transcript file,
    parse_transcript returns, and reading the returned labels back through
    the alphabet gives that text without its newlines, its characters that
    are not in the alphabet and its characters mapped to index 0, in order;
    each returned label is the index of the character it stands for. *)
Theorem parse_transcript_labels_decode {M F : Type}
    (fs : filesystem) (manifest : M) (labels : list ascii)
    (featurizer : option F) (path : string) (text : list ascii) :
  fs path = Ok text →
  ∃ out : list (option nat),
    parse_transcript fs (AudioDataset_init manifest labels featurizer) path
    = Ok out
    ∧ label_char labels <$> out
      = Some <$> filter (kept (make_labels_map labels)) text.
Proof.
  intros Hfile. exists (parse_text (make_labels_map labels) text). split.
  - unfold parse_transcript. rewrite Hfile. cbn [bind].
    unfold getattr, AudioDataset_init.
    rewrite lookup_insert_ne by done. by rewrite lookup_insert_eq.
  - rewrite parse_text_kept, <- list_fmap_compose.
    apply list_fmap_ext. intros k c Hc. simpl.
    apply list_elem_of_lookup_2, list_elem_of_filter in Hc as [[_ Ht] _].
    destruct (make_labels_map labels !! c) as [i|] eqn:Hlook; [|done].
    simpl. by apply make_labels_map_Some in Hlook as [Hi _].
Qed.

Lemma parse_transcript_labels_decode_witness :
  ex_fs "utt1.txt" = Ok ex_text
  ∧ ∃ out : list (option nat),
      parse_transcript ex_fs (AudioDataset_init () ex_labels (@None ()))
        "utt1.txt" = Ok out
      ∧ label_char ex_labels <$> out
        = Some <$> filter (kept (make_labels_map ex_labels)) ex_text.
Proof.
  split; [reflexivity|].
  apply (parse_transcript_labels_decode ex_fs () ex_labels (@None ())
           "utt1.txt" ex_text). reflexivity.
Defined.

(** A character that occurs in the alphabet after its first position is
    mapped to an index other than 0. *)
Lemma later_label_truthy (labels : list ascii) (c : ascii) :
  c ∈ drop 1 labels → truthy (make_labels_map labels !! c) = true.
Proof.
  intros Hc. apply list_elem_of_lookup in Hc as [j Hj].
  rewrite lookup_drop in Hj.
  destruct (make_labels_map labels !! c) as [i|] eqn:Hlook.
  - apply make_labels_map_Some in Hlook as [_ Hlater].
    destruct i as [|i]; [|done]. exfalso.
    apply (Hlater (1 + j)%nat); [lia|done].
  - apply make_labels_map_None in Hlook. exfalso. apply Hlook.
    by eapply list_elem_of_lookup_2.
Qed.

(** X14: a transcript written with characters of the alphabet other than the
    one at index 0, and without newlines, is parsed without loss: one label
    per character, and the labels read back through the alphabet spell the
    transcript. *)
Theorem parse_text_lossless (labels : list ascii) (text : list ascii) :
  Forall (λ c, c ≠ newline ∧ c ∈ drop 1 labels) text →
  length (parse_text (make_labels_map labels) text) = length text
  ∧ label_char labels <$> parse_text (make_labels_map labels) text
    = Some <$> text.
Proof.
  intros Hall.
  assert (Hkept : filter (kept (make_labels_map labels)) text = text).
  { induction Hall as [|c text [Hnl Hc] _ IH]; [done|].
    rewrite filter_cons_True, IH; [done|].
    split; [done|]. by apply later_label_truthy. }
  rewrite parse_text_kept, Hkept, length_fmap. split; [done|].
  rewrite <- list_fmap_compose. apply list_fmap_ext. intros k c Hc. simpl.
  apply list_elem_of_lookup_2 in Hc. rewrite Forall_forall in Hall.
  destruct (Hall c Hc) as [_ Hin]. apply later_label_truthy in Hin.
  destruct (make_labels_map labels !! c) as [i|] eqn:Hlook; [|done].
  simpl. by apply make_labels_map_Some in Hlook as [Hi _].
Qed.

Lemma parse_text_lossless_witness :
  Forall (λ c, c ≠ newline ∧ c ∈ drop 1 ex_labels) ["a"; "b"; "b"; "a"]%char
  ∧ length (parse_text (make_labels_map ex_labels) ["a"; "b"; "b"; "a"]%char)
    = length ["a"; "b"; "b"; "a"]%char
  ∧ label_char ex_labels
      <$> parse_text (make_labels_map ex_labels) ["a"; "b"; "b"; "a"]%char
    = Some <$> ["a"; "b"; "b"; "a"]%char.
Proof.
  assert (Hall : Forall (λ c, c ≠ newline ∧ c ∈ drop 1 ex_labels)
                   ["a"; "b"; "b"; "a"]%char).
  { apply (bool_decide_unpack _). by vm_compute. }
  split; [exact Hall|].
  exact (parse_text_lossless ex_labels ["a"; "b"; "b"; "a"]%char Hall).
Defined.

(** X15: every label that parse_transcript returns is a position of the
    alphabet other than 0, and there are at most as many labels as the
    transcript has characters. *)
Theorem parse_text_labels_in_range (labels : list ascii) (text : list ascii) :
  Forall (λ v, ∃ i : nat, v = Some i ∧ (1 ≤ i < length labels)%nat)
    (parse_text (make_labels_map labels) text)
  ∧ (length (parse_text (make_labels_map labels) text) ≤ length text)%nat.
Proof.
  split.
  - rewrite parse_text_kept. apply Forall_fmap, Forall_forall.
    intros c [[_ Ht] _]%list_elem_of_filter. simpl.
    destruct (make_labels_map labels !! c) as [[|i]|] eqn:Hlook; try done.
    exists (S i). split; [done|].
    apply make_labels_map_Some in Hlook as [Hi _].
    apply lookup_lt_Some in Hi. lia.
  - rewrite parse_text_kept, length_fmap. apply length_filter.
Qed.

(** X16: the newline is removed before the lookup, so a newline in the
    alphabet is never used: the index it is mapped to does not occur in what
    parse_transcript returns, whatever the transcript. *)
Theorem newline_label_never_returned (labels : list ascii)
    (text : list ascii) (i : nat) :
  make_labels_map labels !! newline = Some i →
  Some i ∉ parse_text (make_labels_map labels) text.
Proof.
  intros Hnl Hin. rewrite parse_text_kept in Hin.
  apply list_elem_of_fmap in Hin as (c & Hc & Hkept).
  apply list_elem_of_filter in Hkept as [[Hne _] _].
  symmetry in Hc. apply make_labels_map_Some in Hc as [Hc _].
  apply make_labels_map_Some in Hnl as [Hnl _]. congruence.
Qed.

Lemma newline_label_never_returned_witness :
  make_labels_map ex_labels_nl !! newline = Some 1%nat
  ∧ (Some 1%nat ∉ parse_text (make_labels_map ex_labels_nl) ex_text).
Proof.
  split; [reflexivity|].
  apply (newline_label_never_returned ex_labels_nl ex_text 1). reflexivity.
Defined.

(* ================================================================== *)
(** * Further properties of split_targets *)

(** A slice with a non-negative start and a non-negative length. *)
Lemma slice_nonneg {X} (t : list X) (offset sz : Z) :
  0 ≤ offset → 0 ≤ sz →
  slice t offset (offset + sz)
  = take (Z.to_nat sz) (drop (Z.to_nat offset) t).
Proof.
  intros Hoff Hsz. unfold slice, slice_bound.
  destruct (Z.ltb_spec offset 0); [lia|].
  destruct (Z.ltb_spec (offset + sz) 0); [lia|].
  destruct (decide (Z.of_nat (length t) ≤ offset)) as [Hout|Hin].
  - rewrite (Z.min_r offset), Nat2Z.id by lia.
    rewrite (drop_ge t (Z.to_nat offset)) by lia.
    rewrite drop_ge by lia. by rewrite !take_nil.
  - rewrite (Z.min_l offset) by lia.
    destruct (decide (offset + sz ≤ Z.of_nat (length t))) as [Hfull|Hshort].
    + rewrite Z.min_l by lia. f_equal. lia.
    + rewrite Z.min_r by lia.
      rewrite !take_ge; [done|rewrite length_drop; lia..].
Qed.

Lemma tensor_sum_nonneg (sizes : list Z) :
  Forall (λ z, 0 ≤ z) sizes → 0 ≤ tensor_sum sizes.
Proof. induction 1; simpl; lia. Qed.

Lemma split_from_nonneg (t : list Z) (sizes : list Z) :
  Forall (λ z, 0 ≤ z) sizes →
  ∀ offset : Z,
    0 ≤ offset →
    offset + tensor_sum sizes < 2 ^ 31 →
    length (split_from t offset sizes) = length sizes
    ∧ concat (split_from t offset sizes)
      = take (Z.to_nat (tensor_sum sizes)) (drop (Z.to_nat offset) t)
    ∧ Forall2 (λ piece sz, Z.of_nat (length piece) ≤ sz)
        (split_from t offset sizes) sizes.
Proof.
  induction 1 as [|sz sizes Hsz Hall IH]; intros offset Hoff Hfit.
  - simpl. by rewrite take_0.
  - cbn [split_from concat tensor_sum foldr length] in *.
    fold (tensor_sum sizes) in *.
    pose proof (tensor_sum_nonneg sizes Hall) as Hsum.
    rewrite wrap_int32_inside
      by (change (2 ^ 31) with 2147483648 in *; lia).
    destruct (IH (offset + sz) ltac:(lia) ltac:(lia))
      as (Hlen & Hcat & Hpieces).
    rewrite Hlen, Hcat, slice_nonneg by done. split_and!.
    + done.
    + rewrite (Z2Nat.inj_add sz) by done.
      rewrite <- take_take_drop, drop_drop. do 3 f_equal. lia.
    + constructor; [|done]. rewrite length_take. lia.
Qed.

(** X17: for target sizes that are not negative and sum to less than 2^31
    (so that the 32-bit running offset does not wrap), split_targets returns
    one piece per size and never reads past the end: the pieces put end to
    end are the first sum(target_sizes) targets, or all targets if there are
    fewer, and no piece is longer than its size. *)
Theorem split_targets_pieces_are_prefix (tgts sizes : list Z) :
  Forall (λ z, 0 ≤ z) sizes →
  tensor_sum sizes < 2 ^ 31 →
  length (split_targets tgts sizes) = length sizes
  ∧ concat (split_targets tgts sizes)
    = take (Z.to_nat (tensor_sum sizes)) tgts
  ∧ Forall2 (λ piece sz, Z.of_nat (length piece) ≤ sz)
      (split_targets tgts sizes) sizes.
Proof.
  intros Hall Hfit. unfold split_targets.
  destruct (split_from_nonneg tgts sizes Hall 0 ltac:(lia) ltac:(lia))
    as (Hlen & Hcat & Hpieces).
  by rewrite drop_0 in Hcat.
Qed.

Lemma split_targets_pieces_are_prefix_witness :
  Forall (λ z, 0 ≤ z) [2; 0; 4]
  ∧ tensor_sum [2; 0; 4] < 2 ^ 31
  ∧ length (split_targets [7; 8; 9; 10] [2; 0; 4]) = length [2; 0; 4]
  ∧ concat (split_targets [7; 8; 9; 10] [2; 0; 4])
    = take (Z.to_nat (tensor_sum [2; 0; 4])) [7; 8; 9; 10]
  ∧ Forall2 (λ piece sz, Z.of_nat (length piece) ≤ sz)
      (split_targets [7; 8; 9; 10] [2; 0; 4]) [2; 0; 4].
Proof.
  assert (Hall : Forall (λ z, 0 ≤ z) [2; 0; 4]) by (repeat constructor; lia).
  assert (Hfit : tensor_sum [2; 0; 4] < 2 ^ 31) by reflexivity.
  split; [exact Hall|]. split; [exact Hfit|].
  exact (split_targets_pieces_are_prefix [7; 8; 9; 10] [2; 0; 4] Hall Hfit).
Defined.

Lemma split_from_exact (t : list Z) (sizes : list Z) :
  Forall (λ z, 0 ≤ z) sizes →
  ∀ offset : Z,
    0 ≤ offset →
    offset + tensor_sum sizes < 2 ^ 31 →
    offset + tensor_sum sizes ≤ Z.of_nat (length t) →
    Forall2 (λ piece sz, Z.of_nat (length piece) = sz)
      (split_from t offset sizes) sizes.
Proof.
  induction 1 as [|sz sizes Hsz Hall IH]; intros offset Hoff Hint Hfit.
  - constructor.
  - cbn [split_from tensor_sum foldr] in *. fold (tensor_sum sizes) in *.
    pose proof (tensor_sum_nonneg sizes Hall) as Hsum.
    rewrite wrap_int32_inside
      by (change (2 ^ 31) with 2147483648 in *; lia).
    constructor; [|apply IH; lia].
    rewrite slice_nonneg, length_take, length_drop by done. lia.
Qed.

(** X18: when the target sizes are not negative and sum to no more than the
    number of targets and to less than 2^31, every piece has exactly its
    size, and the pieces are consecutive: together they are the first
    sum(target_sizes) targets. *)
Theorem split_targets_exact_sizes (tgts sizes : list Z) :
  Forall (λ z, 0 ≤ z) sizes →
  tensor_sum sizes < 2 ^ 31 →
  tensor_sum sizes ≤ Z.of_nat (length tgts) →
  Forall2 (λ piece sz, Z.of_nat (length piece) = sz)
    (split_targets tgts sizes) sizes
  ∧ concat (split_targets tgts sizes) ++ drop (Z.to_nat (tensor_sum sizes)) tgts
    = tgts.
Proof.
  intros Hall Hint Hfit. split.
  - apply split_from_exact; [done|lia|lia|lia].
  - destruct (split_from_nonneg tgts sizes Hall 0 ltac:(lia) ltac:(lia))
      as (_ & Hcat & _).
    unfold split_targets. rewrite Hcat, drop_0. apply take_drop.
Qed.

Lemma split_targets_exact_sizes_witness :
  Forall (λ z, 0 ≤ z) [2; 0; 1]
  ∧ tensor_sum [2; 0; 1] < 2 ^ 31
  ∧ tensor_sum [2; 0; 1] ≤ Z.of_nat (length [7; 8; 9; 10])
  ∧ Forall2 (λ piece sz, Z.of_nat (length piece) = sz)
      (split_targets [7; 8; 9; 10] [2; 0; 1]) [2; 0; 1]
  ∧ concat (split_targets [7; 8; 9; 10] [2; 0; 1])
      ++ drop (Z.to_nat (tensor_sum [2; 0; 1])) [7; 8; 9; 10]
    = [7; 8; 9; 10].
Proof.
  assert (Hall : Forall (λ z, 0 ≤ z) [2; 0; 1]) by (repeat constructor; lia).
  assert (Hint : tensor_sum [2; 0; 1] < 2 ^ 31) by reflexivity.
  assert (Hfit : tensor_sum [2; 0; 1] ≤ Z.of_nat (length [7; 8; 9; 10]))
    by (simpl; lia).
  split; [exact Hall|]. split; [exact Hint|]. split; [exact Hfit|].
  exact (split_targets_exact_sizes [7; 8; 9; 10] [2; 0; 1] Hall Hint Hfit).
Defined.

(* ================================================================== *)
(** * The sampler and the collate function together *)

Lemma fetch_in_range {X} (dataset : list X) (indices : list nat) :
  Forall (λ i, (i < length dataset)%nat) indices →
  ∃ batch : list X,
    fetch dataset indices = Ok batch
    ∧ Forall2 (λ i x, dataset !! i = Some x) indices batch.
Proof.
  induction 1 as [|i indices Hi _ (batch & Hfetch & Hall)].
  - exists []. split; [done|constructor].
  - apply lookup_lt_is_Some_2 in Hi as [x Hx].
    exists (x :: batch). cbn [fetch]. rewrite Hx, Hfetch.
    split; [done|]. by constructor.
Qed.

Lemma valid_batch_intro {elt} (h : nat) (batch : list (Sample elt)) :
  batch ≠ [] →
  Forall (λ x, sample_ok h x = true) batch →
  valid_batch batch = true.
Proof.
  destruct batch as [|x0 tl]; [done|]. intros _ Hall. unfold valid_batch.
  rewrite (sample_ok_feature_dim h x0) by by apply Forall_cons in Hall as [? _].
  apply forallb_forall. intros x Hx. rewrite Forall_forall in Hall.
  apply Hall. by apply list_elem_of_In.
Qed.

Lemma yields_same_buckets {D} `{RandomState G} (s : BucketingSampler D)
    (calls : list call) (g : G) :
  shuffle_permutes G →
  same_buckets
    (BucketingSampler_iter (run_calls calls (s, g)).1
       (run_calls calls (s, g)).2).1.1
    (bins s).
Proof.
  intros Hperm. rewrite iter_yields_are_bins.
  destruct (run_calls_same_buckets Hperm calls (s, g)) as [Hsame1 _].
  destruct (run_call_same_buckets Hperm CallIter (run_calls calls (s, g)))
    as [Hsame2 _].
  unfold same_buckets in *. etransitivity; [exact Hsame2|exact Hsame1].
Qed.

(** X19: the training loader never fails on a well-formed dataset.  For a
    dataset held in a list whose samples all fit one feature dimension, a
    sampler over it with a batch size of at least 1, and any history of
    passes and shuffles: every bucket a pass yields names existing samples,
    and collating them returns a batch with one row block per index of the
    bucket, between 1 and batch_size of them, of that feature dimension. *)
Theorem every_yielded_bucket_collates `{Dtype elt} `{RandomState G}
    (dataset : list (Sample elt)) (h : nat) (batch_size : Z) :
  shuffle_permutes G →
  Forall (λ x, sample_ok h x = true) dataset →
  1 ≤ batch_size →
  ∃ s : BucketingSampler (list (Sample elt)),
    BucketingSampler_init dataset batch_size = Ok s
    ∧ ∀ (calls : list call) (g : G) (indices : list nat),
        indices ∈ (BucketingSampler_iter (run_calls calls (s, g)).1
                     (run_calls calls (s, g)).2).1.1 →
        ∃ (out : Batch elt) (w : nat),
          load_batch dataset indices = Ok out
          ∧ shape (inputs out) = (length indices, 1%nat, h, w)
          ∧ 1 ≤ Z.of_nat (length indices) ≤ batch_size
          ∧ length (input_lengths out) = length indices
          ∧ length (target_sizes out) = length indices.
Proof.
  intros Hperm Hok Hbs.
  pose proof (init_bins dataset (length dataset) batch_size eq_refl Hbs)
    as Hinit.
  eexists. split; [exact Hinit|]. intros calls g indices Hin.
  pose proof (range_len_bounds (length dataset) batch_size Hbs) as [Hup Hlow].
  set (n := length dataset) in *.
  set (m := range_len 0 (Z.of_nat n) batch_size) in *.
  set (b := Z.to_nat batch_size) in *.
  pose proof (yields_same_buckets (mkSampler dataset (chunks b m (seq 0 n)))
                calls g Hperm) as Hsame.
  cbn [bins] in Hsame.
  assert (Hconcat : concat (chunks b m (seq 0 n)) = seq 0 n).
  { apply concat_chunks. rewrite length_seq. nia. }
  assert (Hup' : (n ≤ m * b)%nat) by nia.
  assert (Hlow' : (n ≠ 0 → (m - 1) * b < n)%nat).
  { intros Hn. specialize (Hlow Hn). nia. }
  assert (Hzero : (n = 0 → m = 0)%nat).
  { intros Hn. subst m. rewrite Hn. unfold range_len.
    destruct (0 <? batch_size); reflexivity. }
  (* the indices of the bucket are indices of the dataset *)
  assert (Hrange : Forall (λ i, (i < n)%nat) indices).
  { pose proof (same_buckets_concat _ _ Hsame) as Hcc.
    rewrite Hconcat in Hcc. apply perm_partitions in Hcc as (_ & _ & _ & Hlt).
    apply Forall_forall. intros i Hi. by eapply Hlt. }
  (* the bucket is not empty and not larger than the batch size *)
  assert (Hsize : 1 ≤ Z.of_nat (length indices) ≤ batch_size).
  { assert (Hall : Forall (λ c, 1 ≤ Z.of_nat (length c) ≤ batch_size)
                     (chunks b m (seq 0 n))).
    { apply Forall_forall. intros c Hc.
      apply list_elem_of_lookup in Hc as [k Hk].
      destruct (chunks_sizes n b m k c ltac:(lia) Hup' Hlow' Hzero Hk)
        as [Hsz _]. lia. }
    pose proof (same_buckets_Forall_size
                  (λ k, 1 ≤ Z.of_nat k ≤ batch_size) _ _ Hsame Hall) as Hys.
    rewrite Forall_forall in Hys. by apply Hys. }
  destruct (fetch_in_range dataset indices Hrange) as (batch & Hfetch & Hall).
  assert (Hlen : length batch = length indices)
    by (symmetry; by eapply Forall2_length).
  assert (Hvalid : valid_batch batch = true).
  { apply (valid_batch_intro h).
    - destruct batch; [simpl in Hlen; lia|done].
    - apply Forall_forall. intros x Hx.
      apply list_elem_of_lookup in Hx as [k Hk].
      destruct (Forall2_lookup_r _ _ _ _ _ Hall Hk) as (i & _ & Hi).
      rewrite Forall_forall in Hok. apply Hok.
      by eapply list_elem_of_lookup_2. }
  destruct (collate_valid batch Hvalid)
    as (x0 & out & Hhd & Hcall & Hshape & _ & _ & Hl & Hs & _ & _).
  exists out, (frame_count x0). unfold load_batch. rewrite Hfetch.
  cbn [bind]. rewrite Hcall. cbn [snd].
  rewrite Hshape, Hl, Hs, !length_fmap, list_sort_length, Hlen.
  split_and!; try done; try lia. do 2 f_equal.
  apply (sample_ok_feature_dim h).
  assert (Hx0 : x0 ∈ batch).
  { rewrite <- (list_sort_perm sort_key batch).
    apply head_Some_elem_of. exact Hhd. }
  apply list_elem_of_lookup in Hx0 as [k Hk].
  destruct (Forall2_lookup_r _ _ _ _ _ Hall Hk) as (i & _ & Hi).
  rewrite Forall_forall in Hok. apply Hok. by eapply list_elem_of_lookup_2.
Qed.

Lemma every_yielded_bucket_collates_witness :
  shuffle_permutes nat
  ∧ Forall (λ x, sample_ok 2 x = true) ex_dataset
  ∧ 1 ≤ 2
  ∧ ∃ s : BucketingSampler (list (Sample Z)),
      BucketingSampler_init ex_dataset 2 = Ok s
      ∧ ∀ (calls : list call) (g : nat) (indices : list nat),
          indices ∈ (BucketingSampler_iter (run_calls calls (s, g)).1
                       (run_calls calls (s, g)).2).1.1 →
          ∃ (out : Batch Z) (w : nat),
            load_batch ex_dataset indices = Ok out
            ∧ shape (inputs out) = (length indices, 1%nat, 2%nat, w)
            ∧ 1 ≤ Z.of_nat (length indices) ≤ 2
            ∧ length (input_lengths out) = length indices
            ∧ length (target_sizes out) = length indices.
Proof.
  assert (Hok : Forall (λ x, sample_ok 2 x = true) ex_dataset)
    by (repeat constructor).
  split; [exact counter_random_permutes|]. split; [exact Hok|].
  split; [lia|].
  exact (every_yielded_bucket_collates ex_dataset 2 2
           counter_random_permutes Hok ltac:(lia)).
Defined.
